(** * Kingdom-System, service Mikhail: token lifecycle engine

    A shallow embedding of [Services/Mikhail/server.go],
    [Services/Mikhail/security.go] and the Redis token storage of the same
    package, followed by the properties of the token store, the rate
    limiter, the rotation worker and the request handlers.

    Conventions of the embedding:
    - [time.Time] and [time.Duration] are integers counting nanoseconds;
    - Go [error] values are their messages;
    - Go maps are [gmap]s, slices are lists;
    - the clock, the entropy source, the upstream HTTP endpoint and the
      cancellation of request contexts are oracles of an explicit
      environment, read in program order;
    - handlers and the rotation worker are interleaved as atomic steps. *)

From Stdlib Require Import ZArith List String Ascii Lia.
From Stdlib.Strings Require Import Byte.
From stdpp Require Import base option list strings pretty gmap fin_maps.

Local Open Scope string_scope.
Local Open Scope Z_scope.

(* ===================================================================== *)
(** ** package time *)
(* ===================================================================== *)

Module time.

Definition Time := Z.
Definition Duration := Z.

Definition Nanosecond : Duration := 1.
Definition Second : Duration := 1000000000.
Definition Minute : Duration := 60 * Second.
Definition Hour : Duration := 60 * Minute.

(** [t.After(u)] *)
Definition After (t u : Time) : bool := Z.ltb u t.

(** [t.Add(d)] *)
Definition Add (t : Time) (d : Duration) : Time := t + d.

(** Go's [int64], the representation of [time.Duration]: arithmetic on
    it wraps around. *)
Definition wrap64 (z : Z) : Z :=
  (z + 2 ^ 63) mod 2 ^ 64 - 2 ^ 63.

(** [time.Duration(n) * d] for an [int] n. *)
Definition scale (n : Z) (d : Duration) : Duration := wrap64 (n * d).

End time.

Abbreviation Time := time.Time.
Abbreviation Duration := time.Duration.

(* ===================================================================== *)
(** ** package oauth2: the fields of [oauth2.Token] the service uses *)
(* ===================================================================== *)

Module oauth2.

Record Token := mkToken {
  AccessToken : string;
  RefreshToken : string;
  Expiry : Time
}.

End oauth2.

(* ===================================================================== *)
(** ** server.go: TokenInfo and the TokenStorage interface *)
(* ===================================================================== *)

Definition error := string.

Record TokenInfo := mkTokenInfo {
  UserID : string;
  PhoneNumber : string;
  CreatedAt : Time;
  ExpiresAt : Time;
  IsYandexUser : bool;
  YandexToken : option oauth2.Token
}.

(** [type TokenStorage interface]: every method runs against the state of
    the backend and may fail; the state it leaves is returned with the
    result. *)
Class TokenStorage (S : Type) := {
  StoreRefreshToken : string → TokenInfo → S → option error * S;
  GetTokenInfo : string → S → (error + TokenInfo) * S;
  DeleteToken : string → S → option error * S
}.

(* ===================================================================== *)
(** ** server.go: InMemoryTokenStorage *)
(* ===================================================================== *)

Module InMemoryTokenStorage.

Record t := mk {
  tokens : gmap string TokenInfo;
  maxSize : Z
}.

(** [NewInMemoryTokenStorage] *)
Definition New : t := {| tokens := ∅; maxSize := 10000 |}.

(** One firing of the hourly ticker in [cleanupExpiredTokens]: every
    record with [now.After(info.ExpiresAt)] is deleted. *)
Definition cleanupExpiredTokens (now : Time) (s : t) : t :=
  {| tokens := filter (λ kv, time.After now (ExpiresAt kv.2) = false) (tokens s);
     maxSize := maxSize s |}.

Definition len (s : t) : Z := Z.of_nat (size (tokens s)).

Definition StoreRefreshToken (token : string) (info : TokenInfo) (s : t)
  : option error * t :=
  if Z.leb (maxSize s) (len s) then
    (Some "token storage is at capacity", s)
  else if String.eqb (UserID info) "" || String.eqb (PhoneNumber info) "" then
    (Some "invalid token info: missing required fields", s)
  else
    (None, {| tokens := <[token := info]> (tokens s); maxSize := maxSize s |}).

Definition GetTokenInfo (token : string) (s : t) : (error + TokenInfo) * t :=
  match tokens s !! token with
  | Some info => (inr info, s)
  | None => (inl "token not found", s)
  end.

Definition DeleteToken (token : string) (s : t) : option error * t :=
  (None, {| tokens := delete token (tokens s); maxSize := maxSize s |}).

#[export] Instance storage : TokenStorage t := {
  StoreRefreshToken := StoreRefreshToken;
  GetTokenInfo := GetTokenInfo;
  DeleteToken := DeleteToken
}.

(** The calls that reach the store, for runs of the store on its own. *)
Inductive op :=
| OpStore (token : string) (info : TokenInfo)
| OpGet (token : string)
| OpDelete (token : string)
| OpSweep (now : Time).

Definition apply (o : op) (s : t) : t :=
  match o with
  | OpStore token info => (StoreRefreshToken token info s).2
  | OpGet token => (GetTokenInfo token s).2
  | OpDelete token => (DeleteToken token s).2
  | OpSweep now => cleanupExpiredTokens now s
  end.

(** The store after the calls [ops], issued in order on a new store. *)
Definition run (ops : list op) : t := foldl (λ s o, apply o s) New ops.

(** The calls that leave the record [info] under [token] alone: puts and
    deletes of other keys, gets, and sweeps at a time that is not after
    [info]'s expiry. *)
Definition spares (token : string) (info : TokenInfo) (o : op) : Prop :=
  match o with
  | OpStore token' _ => token' ≠ token
  | OpGet _ => True
  | OpDelete token' => token' ≠ token
  | OpSweep now => time.After now (ExpiresAt info) = false
  end.

End InMemoryTokenStorage.

(* ===================================================================== *)
(** ** server.go: RateLimiter *)
(* ===================================================================== *)

Module RateLimiter.

Record t := mk {
  requests : gmap string (list Time);
  window : Duration;
  limit : Z
}.

(** [NewRateLimiter] *)
Definition New (window : Duration) (limit : Z) : t :=
  {| requests := ∅; window := window; limit := limit |}.

(** [rl.requests[key]]: a missing key reads as the nil slice. *)
Definition get (key : string) (rl : t) : list Time :=
  default [] (requests rl !! key).

(** [Allow], with [now] the reading of [time.Now()]. The window is
    negated as an integer: that is [-rl.window] for every window but the
    least [time.Duration], which Go negates to itself. *)
Definition Allow (now : Time) (key : string) (rl : t) : bool * t :=
  let windowStart := time.Add now (- window rl) in
  let validRequests :=
    List.filter (λ t, time.After t windowStart) (get key rl) in
  if Z.leb (limit rl) (Z.of_nat (length validRequests)) then
    (false, {| requests := <[key := validRequests]> (requests rl);
               window := window rl; limit := limit rl |})
  else
    (true, {| requests := <[key := (validRequests ++ [now])%list]> (requests rl);
              window := window rl; limit := limit rl |}).

End RateLimiter.

(* ===================================================================== *)
(** ** The environment of the service *)
(* ===================================================================== *)

(** What an HTTP exchange whose body is decoded as JSON into [A] comes to:
    [client.Do] fails, or a response arrives with its status and the
    outcome of [json.Decode] on its body. *)
Inductive RoundTrip (A : Type) :=
| TransportError (err : error)
| Response (StatusCode : Z) (Status : string) (body : error + A).
Arguments TransportError {A} err.
Arguments Response {A} StatusCode Status body.

(** The anonymous struct [tokenResponse] of [refreshYandexToken]. *)
Record tokenResponse := mkTokenResponse {
  access_token : string;
  refresh_token : string;
  expires_in : Z
}.

(** [YandexUserProfile] *)
Record YandexUserProfile := mkProfile {
  ID : string;
  Email : string;
  FirstName : string;
  LastName : string;
  DisplayName : string;
  AvatarURL : string
}.

Module env.

(** Every oracle is indexed by the number of readings made so far, of any
    oracle: the [n]-th reading is the one the program makes [n]-th. The
    oracles of the upstream provider also see what the request carries:
    the refresh token, the authorization code, the access token. *)
Record t := mk {
  tick : nat;
  (** [time.Now()] *)
  clock : nat → Time;
  (** [crypto/rand]: whether the read fails, and the bytes it yields *)
  rand_err : nat → option error;
  rand_byte : nat → nat → byte;
  (** the POST to [oauth2Config.Endpoint.TokenURL] of [refreshYandexToken] *)
  token_endpoint : nat → string → RoundTrip tokenResponse;
  (** [oauth2Config.Exchange] *)
  exchange : nat → string → error + oauth2.Token;
  (** the GET of [https://login.yandex.ru/info] *)
  info_endpoint : nat → string → RoundTrip YandexUserProfile;
  (** [ctx.Done()] at a [select]: the error of the context when the
      branch of the finished context is the one taken *)
  ctx_done : nat → option error
}.

Definition next (e : t) : t :=
  {| tick := S (tick e); clock := clock e; rand_err := rand_err e;
     rand_byte := rand_byte e; token_endpoint := token_endpoint e;
     exchange := exchange e; info_endpoint := info_endpoint e;
     ctx_done := ctx_done e |}.

End env.

(* ===================================================================== *)
(** ** Computations: state passing, with [log.Fatalf] ending the process *)
(* ===================================================================== *)

Inductive outcome (Σ A : Type) :=
| Ret (a : A) (σ : Σ)
| Exit (msg : string).
Arguments Ret {Σ A} a σ.
Arguments Exit {Σ A} msg.

Definition M (Σ A : Type) := Σ → outcome Σ A.

#[export] Instance M_ret {Σ} : MRet (M Σ) := λ A a σ, Ret a σ.
#[export] Instance M_bind {Σ} : MBind (M Σ) := λ A B f m σ,
  match m σ with
  | Ret a σ' => f a σ'
  | Exit msg => Exit msg
  end.

Definition get_state {Σ} : M Σ Σ := λ σ, Ret σ σ.
(** [log.Fatalf]: the process exits. *)
Definition log_Fatalf {Σ A} (msg : string) : M Σ A := λ _, Exit msg.

(** [n] runs of [m] in sequence, their results dropped. *)
Fixpoint times {Σ A} (n : nat) (m : M Σ A) : M Σ unit :=
  match n with
  | O => mret ()
  | Datatypes.S n => _ ← m; times n m
  end.

(** The state a computation ends in, if the process is still running. *)
Definition final {Σ A} (o : outcome Σ A) : option Σ :=
  match o with
  | Ret _ σ => Some σ
  | Exit _ => None
  end.

(** What a computation returns, if the process is still running. *)
Definition result {Σ A} (o : outcome Σ A) : option A :=
  match o with
  | Ret a _ => Some a
  | Exit _ => None
  end.

(** Reading an oracle of the environment. *)
Definition ask {A} (oracle : env.t → nat → A) : M env.t A :=
  λ e, Ret (oracle e (env.tick e)) (env.next e).

Definition time_Now : M env.t Time := ask env.clock.

(** [rand.Read(b)] and [io.ReadFull(rand.Reader, b)] for a buffer of [n]
    bytes: an error, or [n] bytes. *)
Definition rand_Read (n : nat) : M env.t (error + list byte) :=
  ask (λ e i, match env.rand_err e i with
              | Some err => inl err
              | None => inr (List.map (env.rand_byte e i) (seq 0 n))
              end).

(* ===================================================================== *)
(** ** package encoding/base64: [URLEncoding.EncodeToString] *)
(* ===================================================================== *)

Module base64.

Definition encodeURL : list ascii :=
  list_ascii_of_string
    "ABCDEFGHIJKLMNOPQRSTUVWXYZabcdefghijklmnopqrstuvwxyz0123456789-_".

Definition StdPadding : ascii := "="%char.

(** [enc.encode[val & 0x3F]] *)
Definition encode (val : N) : ascii :=
  nth (N.to_nat (N.land val 63)) encodeURL StdPadding.

Definition uint (b : byte) : N := Byte.to_N b.

Fixpoint EncodeToString (src : list byte) : string :=
  match src with
  | [] => ""
  | [b0] =>
      let val := N.shiftl (uint b0) 16 in
      String (encode (N.shiftr val 18))
        (String (encode (N.shiftr val 12))
           (String StdPadding (String StdPadding "")))
  | [b0; b1] =>
      let val := N.lor (N.shiftl (uint b0) 16) (N.shiftl (uint b1) 8) in
      String (encode (N.shiftr val 18))
        (String (encode (N.shiftr val 12))
           (String (encode (N.shiftr val 6)) (String StdPadding "")))
  | b0 :: b1 :: b2 :: rest =>
      let val := N.lor (N.lor (N.shiftl (uint b0) 16) (N.shiftl (uint b1) 8))
                   (uint b2) in
      String (encode (N.shiftr val 18))
        (String (encode (N.shiftr val 12))
           (String (encode (N.shiftr val 6))
              (String (encode val) (EncodeToString rest))))
  end.

End base64.

(* ===================================================================== *)
(** ** security.go *)
(* ===================================================================== *)

(** The token generators. A read of the entropy source that fails ends
    the process: here through [log.Fatalf], as the source has it; with the
    toolchains in which [rand.Read] returns no error the runtime ends the
    process inside the read, with a message of its own. *)
Definition generate_auth_token (PhoneNumber PasswordHash : string)
  : M env.t string :=
  r ← rand_Read 32;
  match r with
  | inl err => log_Fatalf ("failed to generate auth token: " ++ err)
  | inr b => mret (base64.EncodeToString b)
  end.

Definition generate_refresh_token : M env.t string :=
  r ← rand_Read 32;
  match r with
  | inl err => log_Fatalf ("failed to generate refresh token: " ++ err)
  | inr b => mret (base64.EncodeToString b)
  end.

(** The token made of the 32 bytes that the entropy source yields at its
    [i]-th reading. *)
Definition drawn (e : env.t) (i : nat) : string :=
  base64.EncodeToString (List.map (env.rand_byte e i) (seq 0 32)).
Arguments drawn : simpl never.

(* ===================================================================== *)
(** ** The Redis token storage: encrypt and decrypt *)
(* ===================================================================== *)

Module cipher.

(** [cipher.AEAD], with the slices it appends to made explicit:
    [Seal(dst, nonce, plaintext, additionalData)] is [dst] followed by
    [seal nonce plaintext additionalData]. *)
Class AEAD := {
  NonceSize : nat;
  seal : list byte → list byte → list byte → list byte;
  open : list byte → list byte → list byte → error + list byte
}.

Definition Seal `{AEAD} (dst nonce plaintext additionalData : list byte)
  : list byte :=
  (dst ++ seal nonce plaintext additionalData)%list.

Definition Open `{AEAD} (dst nonce ciphertext additionalData : list byte)
  : error + list byte :=
  match open nonce ciphertext additionalData with
  | inl err => inl err
  | inr plaintext => inr (dst ++ plaintext)%list
  end.

(** The contract of the package: what was sealed under a nonce of the
    right size opens, under that nonce and the same additional data, to
    the plaintext. *)
Class AEADCorrect (gcm : AEAD) :=
  open_seal : ∀ nonce plaintext additionalData,
    length nonce = NonceSize →
    open nonce (seal nonce plaintext additionalData) additionalData
    = inr plaintext.

End cipher.

Module RedisTokenStorage.
Import cipher.

Section gcm.
Context {gcm : AEAD}.

Definition encrypt (data : list byte) : M env.t (error + list byte) :=
  r ← rand_Read NonceSize;
  match r with
  | inl err => mret (inl err)
  | inr nonce => mret (inr (Seal nonce nonce data []))
  end.

Definition decrypt (data : list byte) : error + list byte :=
  if Nat.ltb (length data) NonceSize then
    inl "ciphertext too short"
  else
    let nonce := take NonceSize data in
    let ciphertext := drop NonceSize data in
    Open [] nonce ciphertext [].

End gcm.

End RedisTokenStorage.

(* ===================================================================== *)
(** ** Generated protobuf messages, as the handlers build them *)
(* ===================================================================== *)

Module authenticate_proto.

Record RefreshTokenResponseData := mkData {
  AuthToken : string;
  RefreshToken : string;
  ExpiresAt : Time
}.

(** The [oneof Response] shared by [RefreshTokenResponse],
    [SignUpResponse] and [SignInResponse]. *)
Inductive TokenResponse :=
| Response_Error (Error : string)
| Response_Token (Token : RefreshTokenResponseData).

Record UserProfile := mkUserProfile {
  Id : string;
  Email : string;
  FirstName : string;
  LastName : string;
  DisplayName : string;
  AvatarUrl : string
}.

Record OAuth2CallbackResponse := mkCallback {
  cb_AccessToken : string;
  cb_RefreshToken : string;
  cb_ExpiresAt : Time;
  cb_UserProfile : UserProfile
}.

End authenticate_proto.

(* ===================================================================== *)
(** ** server.go: the upstream refresh client *)
(* ===================================================================== *)

(** [refreshYandexToken]. The request is built from a constant method and
    URL, so [http.NewRequestWithContext] does not fail. *)
Definition refreshYandexToken (yandexToken : oauth2.Token)
  : M env.t (error + oauth2.Token) :=
  if String.eqb (oauth2.RefreshToken yandexToken) "" then
    mret (inl "no refresh token provided in yandexToken")
  else
    resp ← ask (λ e i, env.token_endpoint e i (oauth2.RefreshToken yandexToken));
    match resp with
    | TransportError err =>
        mret (inl ("failed to perform refresh request: " ++ err))
    | Response StatusCode Status body =>
        if negb (Z.eqb StatusCode 200) then
          mret (inl ("yandex token refresh failed with status code "
                       ++ pretty StatusCode ++ ": " ++ Status))
        else
          match body with
          | inl err =>
              mret (inl ("failed to decode Yandex token response: " ++ err))
          | inr tokenResponse =>
              let newRefreshToken :=
                if String.eqb (refresh_token tokenResponse) "" then
                  oauth2.RefreshToken yandexToken
                else refresh_token tokenResponse in
              now ← time_Now;
              mret (inr {|
                oauth2.AccessToken := access_token tokenResponse;
                oauth2.RefreshToken := newRefreshToken;
                oauth2.Expiry :=
                  time.Add now (time.scale (expires_in tokenResponse) time.Second)
              |})
          end
    end.

(** [fetchYandexUserProfile] *)
Definition fetchYandexUserProfile (accessToken : string)
  : M env.t (error + YandexUserProfile) :=
  resp ← ask (λ e i, env.info_endpoint e i accessToken);
  match resp with
  | TransportError err => mret (inl ("failed to fetch user profile: " ++ err))
  | Response StatusCode _ body =>
      if negb (Z.eqb StatusCode 200) then
        mret (inl ("failed to fetch user profile: status code "
                     ++ pretty StatusCode))
      else
        match body with
        | inl err => mret (inl ("failed to decode user profile: " ++ err))
        | inr profile => mret (inr profile)
        end
  end.

(** [ExchangeCode] *)
Definition ExchangeCode (code : string) : M env.t (error + oauth2.Token) :=
  ask (λ e i, env.exchange e i code).

(* ===================================================================== *)
(** ** server.go: AuthServer *)
(* ===================================================================== *)

Record tokenUpdateRequest := mkUpdate {
  oldToken : string;
  newToken : string;
  info : TokenInfo
}.

(** A buffered channel: what is pending, oldest first, and its capacity. *)
Module chan.

Record t (A : Type) := mk { buf : list A; cap : nat }.
Arguments mk {A} buf cap.
Arguments buf {A} _.
Arguments cap {A} _.

(** [make(chan A, n)] *)
Definition make {A} (n : nat) : t A := {| buf := []; cap := n |}.

(** [c <- a] proceeds when the buffer has room. *)
Definition send {A} (a : A) (c : t A) : option (t A) :=
  if Nat.ltb (length (buf c)) (cap c)
  then Some {| buf := (buf c ++ [a])%list; cap := cap c |}
  else None.

(** [<-c] proceeds when a value is pending. *)
Definition recv {A} (c : t A) : option (A * t A) :=
  match buf c with
  | [] => None
  | a :: rest => Some (a, {| buf := rest; cap := cap c |})
  end.

End chan.

Module AuthServer.

Abbreviation TokenResponse := authenticate_proto.TokenResponse.
Abbreviation Response_Error := authenticate_proto.Response_Error.
Abbreviation Response_Token := authenticate_proto.Response_Token.

Section server.
Context {S : Type} `{TokenStorage S}.

Record t := mk {
  tokenStorage : S;
  tokenUpdateChan : chan.t tokenUpdateRequest;
  rateLimiter : RateLimiter.t
}.

(** The server running in its environment. *)
Record process := mkProcess {
  server : t;
  world : env.t
}.

(** [NewAuthServer], for a storage that is already connected. *)
Definition NewAuthServer (storage : S) : t :=
  {| tokenStorage := storage;
     tokenUpdateChan := chan.make 100;
     rateLimiter := RateLimiter.New (1 * time.Minute) 60 |}.

(** *** Lifting the parts of the process into its computations *)

Definition in_world {A} (m : M env.t A) : M process A :=
  λ p, match m (world p) with
       | Ret a e => Ret a {| server := server p; world := e |}
       | Exit msg => Exit msg
       end.

Definition on_storage {A} (f : S → A * S) : M process A :=
  λ p, let '(a, s) := f (tokenStorage (server p)) in
       Ret a {| server := {| tokenStorage := s;
                             tokenUpdateChan := tokenUpdateChan (server p);
                             rateLimiter := rateLimiter (server p) |};
                world := world p |}.

Definition on_rateLimiter {A} (f : RateLimiter.t → A * RateLimiter.t)
  : M process A :=
  λ p, let '(a, rl) := f (rateLimiter (server p)) in
       Ret a {| server := {| tokenStorage := tokenStorage (server p);
                             tokenUpdateChan := tokenUpdateChan (server p);
                             rateLimiter := rl |};
                world := world p |}.

Definition set_chan (c : chan.t tokenUpdateRequest) : M process unit :=
  λ p, Ret () {| server := {| tokenStorage := tokenStorage (server p);
                              tokenUpdateChan := c;
                              rateLimiter := rateLimiter (server p) |};
                 world := world p |}.

(** [s.rateLimiter.Allow(key)] *)
Definition rateLimiter_Allow (key : string) : M process bool :=
  now ← in_world time_Now;
  on_rateLimiter (RateLimiter.Allow now key).

(** *** The rotation worker *)

(** The body of the loop of [tokenUpdateWorker], on the storage. *)
Definition tokenUpdate (update : tokenUpdateRequest) (s : S) : S :=
  match StoreRefreshToken (newToken update) (info update) s with
  | (Some err, s) => s
  | (None, s) => (DeleteToken (oldToken update) s).2
  end.

(** [tokenUpdateWorker] on the requests [updates], received in order. *)
Definition tokenUpdateWorker (updates : list tokenUpdateRequest) (s : S) : S :=
  foldl (λ s update, tokenUpdate update s) s updates.

(** One iteration of the worker in the process: it receives the oldest
    pending request, if there is one. *)
Definition worker_step (p : process) : process :=
  match chan.recv (tokenUpdateChan (server p)) with
  | None => p
  | Some (update, c) =>
      {| server := {| tokenStorage := tokenUpdate update (tokenStorage (server p));
                      tokenUpdateChan := c;
                      rateLimiter := rateLimiter (server p) |};
         world := world p |}
  end.

(** *** RefreshToken *)

(** The end of [RefreshToken]: the new record is built and the rotation
    is sent to the worker. The [select] takes the branch of the
    finished context when the oracle says so; a send that finds the
    channel full blocks, and as the steps here are atomic the call then
    ends at the deadline of its context. *)
Definition rotate (req_RefreshToken : string) (tokenInfo : TokenInfo)
    (newAuthToken newRefreshToken : string) (expiry : Time)
    (newYandexToken : option oauth2.Token)
  : M process (error + TokenResponse) :=
  now ← in_world time_Now;
  let newTokenInfo := {|
    UserID := UserID tokenInfo;
    PhoneNumber := PhoneNumber tokenInfo;
    CreatedAt := now;
    ExpiresAt := expiry;
    IsYandexUser := IsYandexUser tokenInfo;
    YandexToken := newYandexToken |} in
  done ← in_world (ask env.ctx_done);
  match done with
  | Some err => mret (inl err)
  | None =>
      p ← get_state;
      match chan.send {| oldToken := req_RefreshToken;
                         newToken := newRefreshToken;
                         info := newTokenInfo |}
              (tokenUpdateChan (server p)) with
      | None => mret (inl "context deadline exceeded")
      | Some c =>
          _ ← set_chan c;
          mret (inr (Response_Token {|
            authenticate_proto.AuthToken := newAuthToken;
            authenticate_proto.RefreshToken := newRefreshToken;
            authenticate_proto.ExpiresAt := expiry |}))
      end
  end.

Definition RefreshToken (req_RefreshToken : string)
  : M process (error + TokenResponse) :=
  allowed ← rateLimiter_Allow req_RefreshToken;
  if negb allowed then
    mret (inr (Response_Error "rate limit exceeded"))
  else if String.eqb req_RefreshToken "" then
    mret (inr (Response_Error "refresh token is required"))
  else
    r ← on_storage (GetTokenInfo req_RefreshToken);
    match r with
    | inl err => mret (inr (Response_Error "invalid refresh token"))
    | inr tokenInfo =>
        now ← in_world time_Now;
        if time.After now (ExpiresAt tokenInfo) then
          _ ← on_storage (DeleteToken req_RefreshToken);
          mret (inr (Response_Error "refresh token expired"))
        else
          match IsYandexUser tokenInfo, YandexToken tokenInfo with
          | true, Some yandexToken =>
              r ← in_world (refreshYandexToken yandexToken);
              done ← in_world (ask env.ctx_done);
              match done, r with
              | Some err, _ => mret (inl err)
              | None, inl err =>
                  mret (inr (Response_Error "failed to refresh Yandex token"))
              | None, inr newYandexToken =>
                  rotate req_RefreshToken tokenInfo
                    (oauth2.AccessToken newYandexToken)
                    (oauth2.RefreshToken newYandexToken)
                    (oauth2.Expiry newYandexToken)
                    (Some newYandexToken)
              end
          | true, None =>
              mret (inr (Response_Error "invalid Yandex token state"))
          | false, _ =>
              newAuthToken ←
                in_world (generate_auth_token (PhoneNumber tokenInfo) "");
              newRefreshToken ← in_world generate_refresh_token;
              now ← in_world time_Now;
              rotate req_RefreshToken tokenInfo newAuthToken newRefreshToken
                (time.Add now (24 * time.Hour)) None
          end
    end.

(** *** SignUp, SignIn *)

Definition SignUp (req_PhoneNumber req_PasswordHash : string)
  : M process (error + TokenResponse) :=
  authToken ← in_world (generate_auth_token req_PhoneNumber req_PasswordHash);
  refreshToken ← in_world generate_refresh_token;
  createdAt ← in_world time_Now;
  now ← in_world time_Now;
  let tokenInfo := {|
    UserID := req_PhoneNumber;
    PhoneNumber := req_PhoneNumber;
    CreatedAt := createdAt;
    ExpiresAt := time.Add now (30 * 24 * time.Hour);
    IsYandexUser := false;
    YandexToken := None |} in
  err ← on_storage (StoreRefreshToken refreshToken tokenInfo);
  match err with
  | Some _ => mret (inr (Response_Error "failed to store refresh token"))
  | None =>
      now ← in_world time_Now;
      mret (inr (Response_Token {|
        authenticate_proto.AuthToken := authToken;
        authenticate_proto.RefreshToken := refreshToken;
        authenticate_proto.ExpiresAt := time.Add now (24 * time.Hour) |}))
  end.

Definition SignIn (req_PhoneNumber req_PasswordHash : string)
  : M process (error + TokenResponse) :=
  authToken ← in_world (generate_auth_token req_PhoneNumber req_PasswordHash);
  refreshToken ← in_world generate_refresh_token;
  createdAt ← in_world time_Now;
  now ← in_world time_Now;
  let tokenInfo := {|
    UserID := req_PhoneNumber;
    PhoneNumber := req_PhoneNumber;
    CreatedAt := createdAt;
    ExpiresAt := time.Add now (30 * 24 * time.Hour);
    IsYandexUser := false;
    YandexToken := None |} in
  err ← on_storage (StoreRefreshToken refreshToken tokenInfo);
  match err with
  | Some _ => mret (inr (Response_Error "failed to store refresh token"))
  | None =>
      now ← in_world time_Now;
      mret (inr (Response_Token {|
        authenticate_proto.AuthToken := authToken;
        authenticate_proto.RefreshToken := refreshToken;
        authenticate_proto.ExpiresAt := time.Add now (24 * time.Hour) |}))
  end.

(** *** OAuth2Callback *)

Definition OAuth2Callback (req_Code : string)
  : M process (error + authenticate_proto.OAuth2CallbackResponse) :=
  r ← in_world (ExchangeCode req_Code);
  match r with
  | inl err => mret (inl ("failed to exchange code for token: " ++ err))
  | inr token =>
      r ← in_world (fetchYandexUserProfile (oauth2.AccessToken token));
      match r with
      | inl err => mret (inl ("failed to fetch user profile: " ++ err))
      | inr profile =>
          refreshToken ← in_world generate_refresh_token;
          createdAt ← in_world time_Now;
          now ← in_world time_Now;
          let tokenInfo := {|
            UserID := ID profile;
            PhoneNumber := Email profile;
            CreatedAt := createdAt;
            ExpiresAt := time.Add now (30 * 24 * time.Hour);
            IsYandexUser := true;
            YandexToken := Some token |} in
          err ← on_storage (StoreRefreshToken refreshToken tokenInfo);
          match err with
          | Some err => mret (inl ("failed to store refresh token: " ++ err))
          | None =>
              mret (inr {|
                authenticate_proto.cb_AccessToken := oauth2.AccessToken token;
                authenticate_proto.cb_RefreshToken := refreshToken;
                authenticate_proto.cb_ExpiresAt := oauth2.Expiry token;
                authenticate_proto.cb_UserProfile := {|
                  authenticate_proto.Id := ID profile;
                  authenticate_proto.Email := Email profile;
                  authenticate_proto.FirstName := FirstName profile;
                  authenticate_proto.LastName := LastName profile;
                  authenticate_proto.DisplayName := DisplayName profile;
                  authenticate_proto.AvatarUrl :=
                    "https://avatars.yandex.net/get-yapic/"
                      ++ AvatarURL profile ++ "/islands-200" |} |})
          end
      end
  end.

End server.
End AuthServer.

(* ===================================================================== *)
(** ** Instrumented and faulty storages *)
(* ===================================================================== *)

(** A storage that forwards every call to the storage it wraps and records
    the call with its result: what the server does to its [TokenStorage]
    becomes observable as a list of calls, oldest first. *)
Module spy.

Inductive call :=
| Store (token : string) (info : TokenInfo) (result : option error)
| Get (token : string) (result : error + TokenInfo)
| Delete (token : string) (result : option error).

Record t (S : Type) := mk { inner : S; calls : list call }.
Arguments mk {S} inner calls.
Arguments inner {S} _.
Arguments calls {S} _.

Definition watch {S} (s : S) : t S := {| inner := s; calls := [] |}.

Section wrap.
Context {S : Type} `{TokenStorage S}.

Definition record {A} (f : S → A * S) (c : A → call) (s : t S) : A * t S :=
  let '(r, s') := f (inner s) in
  (r, {| inner := s'; calls := (calls s ++ [c r])%list |}).

#[export] Instance storage : TokenStorage (t S) := {
  StoreRefreshToken token info :=
    record (StoreRefreshToken token info) (Store token info);
  GetTokenInfo token := record (GetTokenInfo token) (Get token);
  DeleteToken token := record (DeleteToken token) (Delete token)
}.

End wrap.

(** The calls the rotation worker may make for the requests it receives:
    for each request in turn, one put of the new key; after a put that
    failed nothing more, after a put that succeeded one delete of the old
    key, whatever that delete returns. *)
Inductive rotation : list tokenUpdateRequest → list call → Prop :=
| rotation_done : rotation [] []
| rotation_abandoned update updates err calls :
    rotation updates calls →
    rotation (update :: updates)
      (Store (newToken update) (info update) (Some err) :: calls)
| rotation_applied update updates result calls :
    rotation updates calls →
    rotation (update :: updates)
      (Store (newToken update) (info update) None
         :: Delete (oldToken update) result :: calls).

End spy.

(** An in-process store behind a connection that drops calls: each call
    consumes the head of [faults], and fails without reaching the store
    when that head is [true]. *)
Module unreliable.

Record t := mk { store : InMemoryTokenStorage.t; faults : list bool }.

Definition down : error := "connection refused".

Definition attempt {A} (f : InMemoryTokenStorage.t → A * InMemoryTokenStorage.t)
    (fail : error → A) (s : t) : A * t :=
  match faults s with
  | true :: rest => (fail down, {| store := store s; faults := rest |})
  | false :: rest =>
      let '(r, m) := f (store s) in (r, {| store := m; faults := rest |})
  | [] =>
      let '(r, m) := f (store s) in (r, {| store := m; faults := [] |})
  end.

#[export] Instance storage : TokenStorage t := {
  StoreRefreshToken token info :=
    attempt (InMemoryTokenStorage.StoreRefreshToken token info) Some;
  GetTokenInfo token :=
    attempt (InMemoryTokenStorage.GetTokenInfo token) inl;
  DeleteToken token :=
    attempt (InMemoryTokenStorage.DeleteToken token) Some
}.

End unreliable.

(* ===================================================================== *)
(** ** Concrete environments and ciphers, for instances of the statements *)
(* ===================================================================== *)

Module scenario.

Definition byte_of_nat (n : nat) : byte :=
  default x00 (Byte.of_nat (n mod 256)).

#[export] Instance byte_eq_dec : EqDecision byte := Byte.byte_eq_dec.

(** Entropy for the scenarios: the [i]-th reading starts with [i] written
    in two bytes, so that the readings differ from one another for as
    long as a scenario lasts. *)
Definition entropy (i j : nat) : byte :=
  match j with
  | O => byte_of_nat i
  | Datatypes.S O => byte_of_nat (i / 256)
  | _ => byte_of_nat (i + j)
  end.

(** A quiet world: the clock advances by a millisecond per reading from
    [start], the entropy source delivers, the upstream provider is
    unreachable and no context is cancelled. *)
Definition quiet (start : Time) : env.t := {|
  env.tick := 0;
  env.clock := λ n, start + Z.of_nat n * 1000000;
  env.rand_err := λ _, None;
  env.rand_byte := entropy;
  env.token_endpoint := λ _ _, TransportError "dial tcp: connection refused";
  env.exchange := λ _ _, inl "oauth2: cannot fetch token";
  env.info_endpoint := λ _ _, TransportError "dial tcp: connection refused";
  env.ctx_done := λ _, None
|}.

(** The same world with an upstream provider that answers: the code
    exchange with [token], the profile request with [profile] and every
    refresh with [resp]. *)
Definition upstream (start : Time) (token : oauth2.Token)
    (profile : YandexUserProfile) (resp : tokenResponse) : env.t := {|
  env.tick := 0;
  env.clock := λ n, start + Z.of_nat n * 1000000;
  env.rand_err := λ _, None;
  env.rand_byte := entropy;
  env.token_endpoint := λ _ _, Response 200 "200 OK" (inr resp);
  env.exchange := λ _ _, inr token;
  env.info_endpoint := λ _ _, Response 200 "200 OK" (inr profile);
  env.ctx_done := λ _, None
|}.

(** A toy AEAD: the plaintext in clear, followed by the nonce reversed as
    its tag. It authenticates nothing; it is a lawful instance of the
    interface, with the nonce size of GCM. *)
#[export] Instance tagged : cipher.AEAD := {|
  cipher.NonceSize := 12;
  cipher.seal nonce plaintext _ := (plaintext ++ rev nonce)%list;
  cipher.open nonce ciphertext _ :=
    let n := (length ciphertext - 12)%nat in
    if decide (drop n ciphertext = rev nonce ∧ (12 ≤ length ciphertext)%nat)
    then inr (take n ciphertext)
    else inl "cipher: message authentication failed"
|}.

Definition day : Duration := 24 * time.Hour.


(** An in-process store that holds as many records as
    [NewInMemoryTokenStorage] allows, under the keys ["0"] to ["9999"]. *)
Definition full : InMemoryTokenStorage.t := {|
  InMemoryTokenStorage.tokens :=
    list_to_map
      ((λ k : nat, (pretty k, mkTokenInfo "+7900" "+7900" 0 (30 * day) false None))
         <$> seq 0 (100 * 100));
  InMemoryTokenStorage.maxSize := 10000
|}.

(** A server on a new in-process store, started in the world [e]. *)
Definition boot (e : env.t) : @AuthServer.process InMemoryTokenStorage.t :=
  {| AuthServer.server := AuthServer.NewAuthServer InMemoryTokenStorage.New;
     AuthServer.world := e |}.

End scenario.

(* ===================================================================== *)
(** ** Runs of the service on the in-process store *)
(* ===================================================================== *)

Module service.

Import (hints) InMemoryTokenStorage.

Abbreviation process := (@AuthServer.process InMemoryTokenStorage.t).

(** What happens to the server, one atomic step at a time: a request is
    handled, the rotation worker receives the oldest pending request, or
    the ticker of [cleanupExpiredTokens] fires. *)
Inductive event :=
| SignUp (PhoneNumber PasswordHash : string)
| SignIn (PhoneNumber PasswordHash : string)
| RefreshToken (token : string)
| OAuth2Callback (code : string)
| Worker
| Sweep.

Definition sweep : M process unit :=
  now ← AuthServer.in_world time_Now;
  AuthServer.on_storage
    (λ s, ((), InMemoryTokenStorage.cleanupExpiredTokens now s)).

(** The process after the event, unless [log.Fatalf] ended it. *)
Definition step (ev : event) (p : process) : option process :=
  match ev with
  | SignUp PhoneNumber PasswordHash =>
      final (AuthServer.SignUp PhoneNumber PasswordHash p)
  | SignIn PhoneNumber PasswordHash =>
      final (AuthServer.SignIn PhoneNumber PasswordHash p)
  | RefreshToken token => final (AuthServer.RefreshToken token p)
  | OAuth2Callback code => final (AuthServer.OAuth2Callback code p)
  | Worker => Some (AuthServer.worker_step p)
  | Sweep => final (sweep p)
  end.

Fixpoint exec (evs : list event) (p : process) : option process :=
  match evs with
  | [] => Some p
  | ev :: evs =>
      match step ev p with
      | Some p => exec evs p
      | None => None
      end
  end.

(** The refresh-token keys that have a record in the store. *)
Definition stored (p : process) : gset string :=
  dom (InMemoryTokenStorage.tokens (AuthServer.tokenStorage (AuthServer.server p))).




Definition tokens_of (p : process) : gmap string TokenInfo :=
  InMemoryTokenStorage.tokens (AuthServer.tokenStorage (AuthServer.server p)).

Definition pending (p : process) : list tokenUpdateRequest :=
  chan.buf (AuthServer.tokenUpdateChan (AuthServer.server p)).

Definition clock_tick (p : process) : nat := env.tick (AuthServer.world p).


(** What one step of a password-based service does to the keys: a handler
    leaves the queue alone and adds to the store at most keys drawn during
    the step; or it adds to the queue one request whose new key was drawn
    during the step, and adds nothing to the store; or the worker takes
    the oldest request and adds to the store at most its new key. *)
Inductive change (p p' : process) : Prop :=
| handled :
    pending p' = pending p →
    (∀ key, key ∈ stored p' →
       key ∈ stored p
       ∨ (∃ i, (clock_tick p ≤ i < clock_tick p')%nat
               ∧ key = drawn (AuthServer.world p) i)) →
    change p p'
| queued update i :
    pending p' = (pending p ++ [update])%list →
    (clock_tick p ≤ i < clock_tick p')%nat →
    newToken update = drawn (AuthServer.world p) i →
    stored p' ⊆ stored p →
    change p p'
| received update :
    pending p = update :: pending p' →
    stored p' ⊆ stored p ∪ {[newToken update]} →
    change p p'.



(** The process after the events, or the process itself if it ended on
    the way. *)
Definition after (evs : list event) (p : process) : process :=
  default p (exec evs p).

Definition survives (evs : list event) (p : process) : bool :=
  bool_decide (is_Some (exec evs p)).

End service.

(** Unfolding the plumbing of the computations of the process. *)
Ltac run_M :=
  unfold mbind, M_bind, mret, M_ret, AuthServer.in_world,
    AuthServer.on_storage, AuthServer.on_rateLimiter, AuthServer.set_chan,
    get_state, time_Now, AuthServer.rateLimiter_Allow in *.

(* ===================================================================== *)
(** ** Traffic through the rate limiter *)
(* ===================================================================== *)

Module traffic.

(** The answers of [Allow] to the calls [calls], made in order, each with
    its key and the reading of the clock at the call; and the limiter they
    leave. *)
Fixpoint verdicts (calls : list (string * Time)) (rl : RateLimiter.t)
  : list bool * RateLimiter.t :=
  match calls with
  | [] => ([], rl)
  | (key, now) :: rest =>
      let r := RateLimiter.Allow now key rl in
      let rs := verdicts rest r.2 in
      (r.1 :: rs.1, rs.2)
  end.

End traffic.

(* ===================================================================== *)
(** ** server.go: the profile handlers *)
(* ===================================================================== *)

Module profile.

(** The [authenticate_proto.UserProfile] that [GetMe] and
    [GetProfileByToken] build from the profile of the provider. *)
Definition reply (profile : YandexUserProfile) : authenticate_proto.UserProfile := {|
  authenticate_proto.Id := ID profile;
  authenticate_proto.Email := Email profile;
  authenticate_proto.FirstName := FirstName profile;
  authenticate_proto.LastName := LastName profile;
  authenticate_proto.DisplayName := DisplayName profile;
  authenticate_proto.AvatarUrl :=
    "https://avatars.yandex.net/get-yapic/" ++ AvatarURL profile ++ "/islands-200"
|}.

(** [GetMe], with [auth_token] the string that [ctx.Value("auth_token")]
    holds, if it holds one. *)
Definition GetMe (auth_token : option string)
  : M env.t (error + authenticate_proto.UserProfile) :=
  match auth_token with
  | None => mret (inl "unauthorized: no auth token provided")
  | Some authToken =>
      r ← fetchYandexUserProfile authToken;
      match r with
      | inl err => mret (inl ("failed to fetch user profile: " ++ err))
      | inr profile => mret (inr (reply profile))
      end
  end.

(** [GetProfileByToken] *)
Definition GetProfileByToken (req_AccessToken : string)
  : M env.t (error + authenticate_proto.UserProfile) :=
  if String.eqb req_AccessToken "" then
    mret (inl "access token is required")
  else
    r ← fetchYandexUserProfile req_AccessToken;
    match r with
    | inl err => mret (inl ("failed to fetch user profile: " ++ err))
    | inr profile => mret (inr (reply profile))
    end.

End profile.

(* ===================================================================== *)
(** ** What a handler does to its storage *)
(* ===================================================================== *)

Module access.

(** The calls of a handler that looks a key up: none, one get, or one get
    that found a record followed by one delete, all of that key. *)
Inductive lookup (key : string) : list spy.call → Prop :=
| lookup_none : lookup key []
| lookup_get result : lookup key [spy.Get key result]
| lookup_delete info result :
    lookup key [spy.Get key (inr info); spy.Delete key result].

(** The calls of a handler that opens a session: none, or one put. *)
Inductive open : list spy.call → Prop :=
| open_none : open []
| open_put token info result : open [spy.Store token info result].

End access.

(* ===================================================================== *)
(** ** package encoding/hex: [DecodeString] *)
(* ===================================================================== *)

Module hex.

(** The value of a hexadecimal digit, of either case. *)
Definition fromHexChar (c : ascii) : option N :=
  let n := N_of_ascii c in
  if (48 <=? n)%N && (n <=? 57)%N then Some (n - 48)%N
  else if (97 <=? n)%N && (n <=? 102)%N then Some (n - 97 + 10)%N
  else if (65 <=? n)%N && (n <=? 70)%N then Some (n - 65 + 10)%N
  else None.

Inductive Error :=
| InvalidByteError (c : ascii)
| ErrLength.

(** The digits are read two at a time; of a pair the first digit is
    checked first; a digit left alone at the end is checked before the
    odd length is reported. *)
Fixpoint DecodeString (s : string) : Error + list byte :=
  match s with
  | "" => inr []
  | String p "" =>
      match fromHexChar p with
      | None => inl (InvalidByteError p)
      | Some _ => inl ErrLength
      end
  | String p (String q rest) =>
      match fromHexChar p, fromHexChar q with
      | None, _ => inl (InvalidByteError p)
      | Some _, None => inl (InvalidByteError q)
      | Some a, Some b =>
          match DecodeString rest with
          | inl err => inl err
          | inr bytes =>
              inr (default x00 (Byte.of_N (N.lor (N.shiftl a 4) b)) :: bytes)
          end
      end
  end.

(** An upper-case hexadecimal digit. *)
Definition upper (n : N) : ascii :=
  ascii_of_N (if (n <? 10)%N then 48 + n else 55 + n).

(** [unicode.IsPrint] on the runes below 256. *)
Definition IsPrint (n : N) : bool :=
  ((32 <=? n)%N && (n <=? 126)%N)
  || ((161 <=? n)%N && negb (n =? 173)%N).

(** The UTF-8 encoding of a rune below 256. *)
Definition utf8 (n : N) : string :=
  if (n <? 128)%N then String (ascii_of_N n) ""
  else String (ascii_of_N (192 + n / 64))
         (String (ascii_of_N (128 + n mod 64)) "").

(** The verb [%#U] of fmt on a rune below 256. *)
Definition verb_U (c : ascii) : string :=
  let n := N_of_ascii c in
  "U+00" ++ String (upper (n / 16)) (String (upper (n mod 16)) "")
    ++ (if IsPrint n then " '" ++ utf8 n ++ "'" else "").

(** [err.Error()] *)
Definition Error_ (err : Error) : string :=
  match err with
  | InvalidByteError c => "encoding/hex: invalid byte: " ++ verb_U c
  | ErrLength => "encoding/hex: odd length hex string"
  end.

End hex.

(* ===================================================================== *)
(** ** Start-up: getEnv, NewRedisTokenStorage, NewAuthServer *)
(* ===================================================================== *)

Module startup.

(** The host the process starts on: its environment variables, and what
    [redis.ParseURL] and the first [Ping] come to for a URL and a
    password. *)
Record host := mkHost {
  environ : gmap string string;
  ParseURL : string → option error;
  Ping : string → string → option error
}.

(** [getEnv]: a variable that is set wins over the default, also when it
    is set to the empty string. *)
Definition getEnv (key defaultValue : string) : M host string :=
  λ h, Ret (match environ h !! key with
            | Some value => value
            | None => defaultValue
            end) h.

(** A connected [RedisTokenStorage]: its client, by the URL and password
    it was made with, and the key of its cipher. *)
Record RedisTokenStorage := mkRedis {
  redisURL : string;
  password : string;
  encryptionKey : list byte
}.

(** [aes.NewCipher] accepts keys of 16, 24 and 32 bytes. *)
Definition aes_NewCipher (key : list byte) : option error :=
  let k := length key in
  if (k =? 16)%nat || (k =? 24)%nat || (k =? 32)%nat then None
  else Some ("crypto/aes: invalid key size " ++ pretty k).

(** [NewRedisTokenStorage]; [cipher.NewGCM] does not fail on an AES
    block. *)
Definition NewRedisTokenStorage (redisURL password : string)
    (encryptionKey : list byte) : M host (error + RedisTokenStorage) :=
  λ h,
    match ParseURL h redisURL with
    | Some err => Ret (inl ("failed to parse Redis URL: " ++ err)) h
    | None =>
        match Ping h redisURL password with
        | Some err => Ret (inl ("failed to connect to Redis: " ++ err)) h
        | None =>
            match aes_NewCipher encryptionKey with
            | Some err => Ret (inl ("failed to create cipher: " ++ err)) h
            | None => Ret (inr (mkRedis redisURL password encryptionKey)) h
            end
        end
    end.

(** [NewAuthServer], up to the start of the rotation worker. *)
Definition NewAuthServer : M host (@AuthServer.t RedisTokenStorage) :=
  redisURL ← getEnv "REDIS_URL" "redis://localhost:6379";
  redisPassword ← getEnv "REDIS_PASSWORD" "";
  hexKey ← getEnv "REDIS_ENCRYPTION_KEY" "your-32-byte-encryption-key-here";
  match hex.DecodeString hexKey with
  | inl err =>
      log_Fatalf ("Failed to decode encryption key: " ++ hex.Error_ err)
  | inr encryptionKey =>
      r ← NewRedisTokenStorage redisURL redisPassword encryptionKey;
      match r with
      | inl err => log_Fatalf ("Failed to create Redis storage: " ++ err)
      | inr storage => mret (AuthServer.NewAuthServer storage)
      end
  end.

End startup.

(* ===================================================================== *)
(** ** The Redis token storage: its three methods *)
(* ===================================================================== *)

Module redis.

(** What [client.Get(ctx, key).Bytes()] comes to: the error [redis.Nil]
    of a missing key, another error, or the value. *)
Inductive reply :=
| Nil
| Failed (err : error)
| Bytes (data : list byte).

(** The commands of [redis.Client] that the storage issues, against the
    state of what the client is connected to. *)
Class Client (R : Type) := {
  Set_ : string → list byte → Duration → R → option error * R;
  Get : string → R → reply * R;
  Del : string → R → option error * R
}.

End redis.

Module json.

(** [json.Marshal] and [json.Unmarshal] on [TokenInfo]. *)
Class Codec := {
  Marshal : TokenInfo → error + list byte;
  Unmarshal : list byte → error + TokenInfo
}.

End json.

Module RedisTokenStorageMethods.
Import cipher RedisTokenStorage.

(** [t.Sub(u)]: the difference, kept within the range of a
    [time.Duration]. *)
Definition time_Sub (t u : Time) : Duration :=
  Z.max (- 2 ^ 63) (Z.min (2 ^ 63 - 1) (t - u)).

(** [time.Until(t)] *)
Definition time_Until (t : Time) : M env.t Duration :=
  now ← time_Now; mret (time_Sub t now).

Section methods.
Context {gcm : AEAD} {codec : json.Codec} {R : Type} `{redis.Client R}.

(** The storage at work: what its client is connected to, and the
    environment its entropy and its clock come from. *)
Record t := mk { client : R; world : env.t }.

Definition in_world {A} (m : M env.t A) : M t A :=
  λ s, match m (world s) with
       | Ret a e => Ret a {| client := client s; world := e |}
       | Exit msg => Exit msg
       end.

Definition on_client {A} (f : R → A * R) : M t A :=
  λ s, let '(a, r) := f (client s) in Ret a {| client := r; world := world s |}.

Definition StoreRefreshToken (token : string) (info : TokenInfo)
  : M t (option error) :=
  match json.Marshal info with
  | inl err => mret (Some ("failed to marshal token info: " ++ err))
  | inr data =>
      r ← in_world (encrypt data);
      match r with
      | inl err => mret (Some ("failed to encrypt token info: " ++ err))
      | inr encrypted =>
          let key := "token:" ++ token in
          expiration ← in_world (time_Until (ExpiresAt info));
          err ← on_client (redis.Set_ key encrypted expiration);
          match err with
          | Some err => mret (Some ("failed to store token in Redis: " ++ err))
          | None => mret None
          end
      end
  end.

Definition GetTokenInfo (token : string) : M t (error + TokenInfo) :=
  let key := "token:" ++ token in
  r ← on_client (redis.Get key);
  match r with
  | redis.Nil => mret (inl "token not found")
  | redis.Failed err => mret (inl ("failed to get token from Redis: " ++ err))
  | redis.Bytes encrypted =>
      match decrypt encrypted with
      | inl err => mret (inl ("failed to decrypt token info: " ++ err))
      | inr data =>
          match json.Unmarshal data with
          | inl err => mret (inl ("failed to unmarshal token info: " ++ err))
          | inr info => mret (inr info)
          end
      end
  end.

Definition DeleteToken (token : string) : M t (option error) :=
  let key := "token:" ++ token in
  err ← on_client (redis.Del key);
  match err with
  | Some err => mret (Some ("failed to delete token from Redis: " ++ err))
  | None => mret None
  end.

End methods.

Arguments t R : clear implicits.

End RedisTokenStorageMethods.

(** A Redis that keeps every value it is given and forgets none, and a
    codec that writes the phone number of a record and nothing else: both
    are lawful instances of their interfaces, for instances of the
    statements. *)
Module toy.

#[export] Instance keeps : redis.Client (gmap string (list byte)) := {|
  redis.Set_ key value _ r := (None, <[key := value]> r);
  redis.Get key r :=
    (match r !! key with
     | Some value => redis.Bytes value
     | None => redis.Nil
     end, r);
  redis.Del key r := (None, delete key r)
|}.

#[export] Instance phone_only : json.Codec := {|
  json.Marshal info :=
    inr (byte_of_ascii <$> list_ascii_of_string (PhoneNumber info));
  json.Unmarshal data :=
    let phone :=
      string_of_list_ascii (ascii_of_byte <$> data) in
    inr (mkTokenInfo phone phone 0 0 false None)
|}.

End toy.

(* ===================================================================== *)
(** * Properties *)
(* ===================================================================== *)

(** ** The in-process token store *)

Section in_memory_facts.
Import InMemoryTokenStorage.

Lemma store_at_capacity s token info :
  maxSize s ≤ len s →
  StoreRefreshToken token info s = (Some "token storage is at capacity", s).
Proof.
  intros Hfull. unfold StoreRefreshToken.
  destruct (Z.leb_spec (maxSize s) (len s)); [done | lia].
Qed.

Lemma store_error_unchanged s token info err :
  (StoreRefreshToken token info s).1 = Some err →
  (StoreRefreshToken token info s).2 = s.
Proof.
  unfold StoreRefreshToken.
  destruct (maxSize s <=? len s); [done |].
  destruct (_ || _); [done | discriminate].
Qed.

Lemma store_maxSize s token info :
  maxSize (StoreRefreshToken token info s).2 = maxSize s.
Proof.
  unfold StoreRefreshToken.
  destruct (maxSize s <=? len s); [done |]. by destruct (_ || _).
Qed.

Lemma store_within_capacity s token info :
  len s ≤ maxSize s → len (StoreRefreshToken token info s).2 ≤ maxSize s.
Proof.
  intros Hinv. unfold StoreRefreshToken.
  destruct (Z.leb_spec (maxSize s) (len s)); [done |].
  destruct (_ || _); [done |]. unfold len in *; simpl.
  destruct (tokens s !! token) as [old|] eqn:Hold.
  - rewrite map_size_insert_Some; [lia | eauto].
  - rewrite map_size_insert_None; [lia | done].
Qed.

Lemma delete_within_capacity s token :
  len s ≤ maxSize s → len (DeleteToken token s).2 ≤ maxSize s.
Proof.
  intros Hinv. unfold len in *; simpl.
  pose proof (map_subseteq_size (delete token (tokens s)) (tokens s)
                (delete_subseteq _ _)). lia.
Qed.

Lemma cleanup_within_capacity s now :
  len s ≤ maxSize s → len (cleanupExpiredTokens now s) ≤ maxSize s.
Proof.
  intros Hinv. unfold len in *; simpl.
  pose proof (map_size_filter
                (λ kv : string * TokenInfo,
                   time.After now (ExpiresAt kv.2) = false) (tokens s)). lia.
Qed.

Lemma get_unchanged s token : (GetTokenInfo token s).2 = s.
Proof. unfold GetTokenInfo. by destruct (tokens s !! token). Qed.

Lemma apply_maxSize o s : maxSize (apply o s) = maxSize s.
Proof.
  destruct o; simpl; [apply store_maxSize | by rewrite get_unchanged | done..].
Qed.

Lemma apply_within_capacity o s :
  len s ≤ maxSize s → len (apply o s) ≤ maxSize (apply o s).
Proof.
  intros Hinv. rewrite apply_maxSize. destruct o; simpl.
  - by apply store_within_capacity.
  - by rewrite get_unchanged.
  - by apply delete_within_capacity.
  - by apply cleanup_within_capacity.
Qed.

Lemma run_snoc ops o : run (ops ++ [o]) = apply o (run ops).
Proof. unfold run. by rewrite foldl_app. Qed.

Lemma run_invariant ops :
  maxSize (run ops) = 10000 ∧ len (run ops) ≤ maxSize (run ops).
Proof.
  induction ops as [|o ops [IHmax IHlen]] using rev_ind.
  - by vm_compute.
  - rewrite run_snoc, apply_maxSize. split; [done |].
    rewrite <- (apply_maxSize o). by apply apply_within_capacity.
Qed.

(** C8. A put on an in-process store that holds [maxSize] records (or
    more) is rejected with the capacity error and leaves the store as it
    was; and after any sequence of puts, gets, deletes and sweeps on a
    new store the ceiling is the 10000 of [NewInMemoryTokenStorage] and
    the number of records is at most that. *)
Theorem in_memory_capacity_ceiling :
  (∀ s token info,
      maxSize s ≤ len s →
      StoreRefreshToken token info s
      = (Some "token storage is at capacity", s))
  ∧ (∀ ops, maxSize (run ops) = 10000 ∧ len (run ops) ≤ 10000).
Proof.
  split.
  - apply store_at_capacity.
  - intros ops. destruct (run_invariant ops) as [Hmax Hlen].
    split; [done | by rewrite <- Hmax].
Qed.

End in_memory_facts.

Section in_memory_expiry.
Import InMemoryTokenStorage.

(** The store of the scenario holds 10000 records: its keys are the
    decimal numerals of the numbers below 10000. *)
Lemma full_len : len scenario.full = 10000.
Proof.
  unfold len, scenario.full, tokens.
  rewrite map_size_list_to_map.
  - rewrite length_fmap, length_seq. reflexivity.
  - rewrite <- list_fmap_compose.
    apply (NoDup_fmap_2 (λ k : nat, pretty k)), NoDup_seq.
Qed.

Lemma in_memory_capacity_ceiling_witness :
  maxSize scenario.full ≤ len scenario.full
  ∧ StoreRefreshToken "one more"
      (mkTokenInfo "+7901" "+7901" 0 10 false None) scenario.full
    = (Some "token storage is at capacity", scenario.full).
Proof.
  assert (Hfull : maxSize scenario.full ≤ len scenario.full).
  { rewrite full_len. unfold scenario.full, maxSize. lia. }
  split; [exact Hfull |].
  exact (proj1 in_memory_capacity_ceiling scenario.full "one more" _ Hfull).
Defined.

Lemma store_lookup_ne s token token' info' :
  token' ≠ token →
  tokens (StoreRefreshToken token' info' s).2 !! token = tokens s !! token.
Proof.
  intros Hne. unfold StoreRefreshToken.
  destruct (maxSize s <=? len s); [done |].
  destruct (_ || _); [done |]. simpl. by rewrite lookup_insert_ne.
Qed.

Lemma apply_spares token info o s :
  spares token info o →
  tokens s !! token = Some info → tokens (apply o s) !! token = Some info.
Proof.
  intros Hspares Hin. destruct o; simpl in *.
  - by rewrite store_lookup_ne.
  - by rewrite get_unchanged.
  - by rewrite lookup_delete_ne.
  - by apply map_lookup_filter_Some.
Qed.

Lemma foldl_spares token info ops s :
  Forall (spares token info) ops →
  tokens s !! token = Some info →
  tokens (foldl (λ s o, apply o s) s ops) !! token = Some info.
Proof.
  intros Hall. revert s.
  induction Hall as [|o ops Ho _ IH]; intros s Hin; simpl; [done |].
  apply IH. by apply apply_spares.
Qed.

Lemma cleanup_lookup_expired s token info now :
  tokens s !! token = Some info →
  time.After now (ExpiresAt info) = true →
  tokens (cleanupExpiredTokens now s) !! token = None.
Proof.
  intros Hin Hexp. simpl. apply map_lookup_filter_None. right.
  intros info' Hin' Hkeep. simpl in Hkeep. congruence.
Qed.

(** C10. [GetTokenInfo] of the in-process store does not look at the
    clock: a record whose [ExpiresAt] is already behind [now] is still
    returned (and the store is left as it is), also after any calls that
    are neither a sweep after the expiry nor a delete or put of its key;
    once the sweep runs at [now], or the key is deleted, the get reports
    that the token is not found. *)
Theorem in_memory_get_ignores_expiry s token info now ops :
  tokens s !! token = Some info →
  time.After now (ExpiresAt info) = true →
  Forall (spares token info) ops →
  GetTokenInfo token s = (inr info, s)
  ∧ (GetTokenInfo token (foldl (λ s o, apply o s) s ops)).1 = inr info
  ∧ (GetTokenInfo token (cleanupExpiredTokens now s)).1 = inl "token not found"
  ∧ (GetTokenInfo token (DeleteToken token s).2).1 = inl "token not found".
Proof.
  intros Hin Hexp Hops. repeat split.
  - unfold GetTokenInfo. by rewrite Hin.
  - unfold GetTokenInfo. by rewrite (foldl_spares token info ops s Hops Hin).
  - unfold GetTokenInfo. by rewrite (cleanup_lookup_expired s token info now).
  - unfold GetTokenInfo. simpl. by rewrite lookup_delete_eq.
Qed.

Lemma in_memory_get_ignores_expiry_witness :
  let info := mkTokenInfo "u" "+7" 0 10 false None in
  let other := mkTokenInfo "v" "+8" 0 5000 false None in
  let s := (StoreRefreshToken "a" info New).2 in
  let ops := [OpStore "b" other; OpGet "a"; OpSweep 7; OpDelete "b"] in
  GetTokenInfo "a" s = (inr info, s)
  ∧ (GetTokenInfo "a" (foldl (λ s o, apply o s) s ops)).1 = inr info
  ∧ (GetTokenInfo "a" (cleanupExpiredTokens 3600 s)).1 = inl "token not found"
  ∧ (GetTokenInfo "a" (DeleteToken "a" s).2).1 = inl "token not found".
Proof.
  apply (in_memory_get_ignores_expiry _ "a" _ 3600).
  - vm_compute. reflexivity.
  - vm_compute. reflexivity.
  - repeat constructor; vm_compute; discriminate.
Defined.

End in_memory_expiry.

(** ** The rate limiter *)

Section rate_limiter_facts.
Import RateLimiter.

Lemma Allow_window now key rl : window (Allow now key rl).2 = window rl.
Proof. unfold Allow. by destruct (_ <=? _). Qed.

Lemma Allow_limit now key rl : limit (Allow now key rl).2 = limit rl.
Proof. unfold Allow. by destruct (_ <=? _). Qed.

(** What [Allow] leaves under [key]: the timestamps of the window, and
    [now] after them exactly when the call is admitted. *)
Lemma Allow_get now key rl :
  get key (Allow now key rl).2
  = (List.filter (λ t, time.After t (time.Add now (- window rl))) (get key rl)
       ++ (if (Allow now key rl).1 then [now] else []))%list.
Proof.
  unfold Allow. destruct (_ <=? _); unfold get; simpl;
    rewrite lookup_insert_eq; simpl; by rewrite ?app_nil_r.
Qed.

Lemma Allow_get_ne now key key' rl :
  key ≠ key' → get key' (Allow now key rl).2 = get key' rl.
Proof.
  intros Hne. unfold Allow.
  destruct (_ <=? _); unfold get; simpl; by rewrite lookup_insert_ne.
Qed.

(** [Allow] admits exactly when fewer than [limit] timestamps of the
    window are recorded. *)
Lemma Allow_admits now key rl :
  (Allow now key rl).1
  = negb (limit rl <=? Z.of_nat (length
      (List.filter (λ t, time.After t (time.Add now (- window rl)))
         (get key rl)))).
Proof. unfold Allow. by destruct (_ <=? _). Qed.

Lemma after_true t u : u < t → time.After t u = true.
Proof. intros. by apply Z.ltb_lt. Qed.

Lemma after_false t u : t ≤ u → time.After t u = false.
Proof. intros. by apply Z.ltb_ge. Qed.

(** C5. With a window of one second and a limit of two, three calls of
    [Allow] for one key at times [t1 ≤ t2 ≤ t3] less than a second apart
    return true, true, false; the rejected call records no timestamp
    (the key still holds [t1; t2]); and a call at [t4], a second or more
    after the first, returns true. *)
Theorem rate_limiter_two_per_second (key : string) (t1 t2 t3 t4 : Time) :
  t1 ≤ t2 → t2 ≤ t3 → t3 < t1 + time.Second → t1 + time.Second ≤ t4 →
  let r1 := Allow t1 key (New time.Second 2) in
  let r2 := Allow t2 key r1.2 in
  let r3 := Allow t3 key r2.2 in
  let r4 := Allow t4 key r3.2 in
  r1.1 = true ∧ r2.1 = true ∧ r3.1 = false
  ∧ get key r2.2 = [t1; t2] ∧ get key r3.2 = [t1; t2]
  ∧ r4.1 = true.
Proof.
  intros H12 H23 Hin Hout r1 r2 r3 r4.
  assert (Hg0 : get key (New time.Second 2) = []) by done.
  assert (Ha1 : r1.1 = true).
  { unfold r1. by rewrite Allow_admits, Hg0. }
  assert (Hg1 : get key r1.2 = [t1]).
  { unfold r1. rewrite Allow_get, Hg0. fold r1. by rewrite Ha1. }
  assert (Hw1 : window r1.2 = time.Second) by apply Allow_window.
  assert (Hl1 : limit r1.2 = 2) by apply Allow_limit.
  assert (Hf2 : List.filter (λ t, time.After t (time.Add t2 (- time.Second)))
                  [t1] = [t1]).
  { simpl. rewrite after_true; [done | unfold time.Add; lia]. }
  assert (Ha2 : r2.1 = true).
  { unfold r2. by rewrite Allow_admits, Hg1, Hw1, Hl1, Hf2. }
  assert (Hg2 : get key r2.2 = [t1; t2]).
  { unfold r2. rewrite Allow_get, Hg1, Hw1, Hf2. fold r2. by rewrite Ha2. }
  assert (Hw2 : window r2.2 = time.Second).
  { unfold r2. by rewrite Allow_window. }
  assert (Hl2 : limit r2.2 = 2).
  { unfold r2. by rewrite Allow_limit. }
  assert (Hf3 : List.filter (λ t, time.After t (time.Add t3 (- time.Second)))
                  [t1; t2] = [t1; t2]).
  { simpl. rewrite !after_true; [done | unfold time.Add; lia..]. }
  assert (Ha3 : r3.1 = false).
  { unfold r3. by rewrite Allow_admits, Hg2, Hw2, Hl2, Hf3. }
  assert (Hg3 : get key r3.2 = [t1; t2]).
  { unfold r3. rewrite Allow_get, Hg2, Hw2, Hf3. fold r3. by rewrite Ha3. }
  assert (Hw3 : window r3.2 = time.Second).
  { unfold r3. by rewrite Allow_window. }
  assert (Hl3 : limit r3.2 = 2).
  { unfold r3. by rewrite Allow_limit. }
  repeat split; try done.
  unfold r4. rewrite Allow_admits, Hg3, Hw3, Hl3. simpl.
  rewrite (after_false t1); [| unfold time.Add; lia].
  by destruct (time.After t2 _).
Qed.

Lemma rate_limiter_two_per_second_witness :
  let r1 := Allow 100 "x" (New time.Second 2) in
  let r2 := Allow 200 "x" r1.2 in
  let r3 := Allow 300 "x" r2.2 in
  let r4 := Allow 1000000100 "x" r3.2 in
  r1.1 = true ∧ r2.1 = true ∧ r3.1 = false
  ∧ get "x" r2.2 = [100; 200] ∧ get "x" r3.2 = [100; 200]
  ∧ r4.1 = true.
Proof.
  apply (rate_limiter_two_per_second "x" 100 200 300 1000000100);
    vm_compute; congruence.
Defined.

End rate_limiter_facts.

(** ** The upstream refresh client *)

Section upstream_facts.

(** C7. When the token endpoint answers the refresh request with status
    200 and a body that decodes with an empty [refresh_token], the
    credential [refreshYandexToken] returns carries the refresh token of
    the credential it was given (with the access token of the answer and
    the expiry counted from the clock). *)
Theorem refreshYandexToken_keeps_refresh_token
    (yandexToken : oauth2.Token) (e : env.t) (Status : string)
    (resp : tokenResponse) :
  oauth2.RefreshToken yandexToken ≠ "" →
  env.token_endpoint e (env.tick e) (oauth2.RefreshToken yandexToken)
  = Response 200 Status (inr resp) →
  refresh_token resp = "" →
  refreshYandexToken yandexToken e
  = Ret (inr {|
      oauth2.AccessToken := access_token resp;
      oauth2.RefreshToken := oauth2.RefreshToken yandexToken;
      oauth2.Expiry :=
        time.Add (env.clock e (S (env.tick e)))
          (time.scale (expires_in resp) time.Second) |})
      (env.next (env.next e)).
Proof.
  intros Hold Hresp Homit. unfold refreshYandexToken.
  apply String.eqb_neq in Hold. rewrite Hold.
  unfold mbind, M_bind, ask. rewrite Hresp. simpl.
  rewrite Homit. reflexivity.
Qed.

End upstream_facts.

Section upstream_witness.

Lemma refreshYandexToken_keeps_refresh_token_witness :
  let old := oauth2.mkToken "access-0" "refresh-0" 5000 in
  let resp := mkTokenResponse "access-1" "" 3600 in
  let e := scenario.upstream 1000 old (mkProfile "1" "a@b" "A" "B" "AB" "0") resp in
  refreshYandexToken old e
  = Ret (inr (oauth2.mkToken "access-1" "refresh-0"
                (1000 + 1000000 + 3600 * time.Second)))
      (env.next (env.next e)).
Proof.
  intros old resp e.
  apply (refreshYandexToken_keeps_refresh_token old e "200 OK" resp).
  - vm_compute. discriminate.
  - reflexivity.
  - reflexivity.
Defined.

End upstream_witness.

(** ** The cipher box of the Redis storage *)

Section cipher_facts.
Import cipher RedisTokenStorage.

Lemma rand_Read_ok n e :
  env.rand_err e (env.tick e) = None →
  rand_Read n e
  = Ret (inr (List.map (env.rand_byte e (env.tick e)) (seq 0 n))) (env.next e).
Proof. intros Hok. unfold rand_Read, ask. by rewrite Hok. Qed.

Lemma rand_Read_length n e bytes e' :
  rand_Read n e = Ret (inr bytes) e' → length bytes = n.
Proof.
  unfold rand_Read, ask. destruct (env.rand_err e _); [discriminate |].
  intros [= <- _]. by rewrite length_map, length_seq.
Qed.

Context {gcm : AEAD} {gcm_correct : AEADCorrect gcm}.

Lemma decrypt_sealed nonce data :
  length nonce = NonceSize →
  decrypt (Seal nonce nonce data []) = inr data.
Proof.
  intros Hlen. unfold decrypt, Seal, Open.
  rewrite length_app, Hlen.
  destruct (Nat.ltb_spec (NonceSize + length (seal nonce data [])) NonceSize);
    [lia |].
  rewrite <- Hlen at 1 2.
  rewrite take_app_length, drop_app_length.
  by rewrite open_seal.
Qed.

(** C6. Whatever [encrypt] returns for a plaintext, [decrypt] opens to
    that plaintext; and when the entropy source delivers, [encrypt] does
    return: the ciphertext is the nonce just read, [NonceSize] bytes
    long, followed by the sealed plaintext, and [decrypt] takes the nonce
    back off as the prefix of that length. *)
Theorem encrypt_decrypt_roundtrip (data : list byte) (e : env.t) :
  (∀ ciphertext e',
      encrypt data e = Ret (inr ciphertext) e' →
      decrypt ciphertext = inr data)
  ∧ (env.rand_err e (env.tick e) = None →
     let nonce := List.map (env.rand_byte e (env.tick e)) (seq 0 NonceSize) in
     let ciphertext := (nonce ++ seal nonce data [])%list in
     length nonce = NonceSize
     ∧ encrypt data e = Ret (inr ciphertext) (env.next e)
     ∧ take NonceSize ciphertext = nonce
     ∧ drop NonceSize ciphertext = seal nonce data []
     ∧ decrypt ciphertext = inr data).
Proof.
  split.
  - intros ciphertext e'. unfold encrypt, mbind, M_bind.
    destruct (rand_Read NonceSize e) as [[err|nonce] e1|] eqn:Hread;
      [discriminate | | discriminate].
    intros [= <- _]. apply decrypt_sealed. by eapply rand_Read_length.
  - intros Hok nonce ciphertext.
    assert (Hlen : length nonce = NonceSize).
    { unfold nonce. by rewrite length_map, length_seq. }
    split; [done |]. split.
    { unfold encrypt, mbind, M_bind. by rewrite (rand_Read_ok _ _ Hok). }
    unfold ciphertext. rewrite <- Hlen at 1 2.
    rewrite take_app_length, drop_app_length. repeat split.
    by apply decrypt_sealed.
Qed.

End cipher_facts.

Section cipher_witness.
Import cipher RedisTokenStorage.

(** The toy cipher keeps the contract of the package. *)
Lemma tagged_correct : AEADCorrect scenario.tagged.
Proof.
  intros nonce plaintext ad Hlen. simpl in *.
  rewrite length_app, length_rev, Hlen.
  replace (length plaintext + 12 - 12)%nat with (length plaintext) by lia.
  rewrite drop_app_length, take_app_length.
  rewrite decide_True; [done | split; [done | lia]].
Qed.

Lemma encrypt_decrypt_roundtrip_witness :
  let gcm := scenario.tagged in
  let data := [x68; x69] in
  let e := scenario.quiet 0 in
  let nonce := List.map (scenario.entropy 0) (seq 0 12) in
  env.rand_err e (env.tick e) = None
  ∧ encrypt data e = Ret (inr (nonce ++ data ++ rev nonce)%list) (env.next e)
  ∧ decrypt (nonce ++ data ++ rev nonce)%list = inr data.
Proof.
  intros gcm data e nonce.
  assert (Hok : env.rand_err e (env.tick e) = None) by reflexivity.
  destruct (@encrypt_decrypt_roundtrip scenario.tagged tagged_correct data e)
    as [_ Hrun].
  destruct (Hrun Hok) as (_ & Henc & _ & _ & Hdec).
  split; [exact Hok |]. split; [exact Henc | exact Hdec].
Defined.

End cipher_witness.

(** ** Token generation, sign-up and sign-in *)

Section generation_facts.

Lemma generate_auth_token_ok PhoneNumber PasswordHash e :
  env.rand_err e (env.tick e) = None →
  generate_auth_token PhoneNumber PasswordHash e
  = Ret (drawn e (env.tick e)) (env.next e).
Proof.
  intros Hok. unfold generate_auth_token, mbind, M_bind, rand_Read, ask.
  by rewrite Hok.
Qed.

Lemma generate_refresh_token_ok e :
  env.rand_err e (env.tick e) = None →
  generate_refresh_token e = Ret (drawn e (env.tick e)) (env.next e).
Proof.
  intros Hok. unfold generate_refresh_token, mbind, M_bind, rand_Read, ask.
  by rewrite Hok.
Qed.

Lemma drawn_next e i : drawn (env.next e) i = drawn e i.
Proof. reflexivity. Qed.

Lemma generate_auth_token_args PhoneNumber PasswordHash PhoneNumber' PasswordHash' :
  generate_auth_token PhoneNumber PasswordHash
  = generate_auth_token PhoneNumber' PasswordHash'.
Proof. reflexivity. Qed.

Lemma generate_auth_token_inv PhoneNumber PasswordHash e token e' :
  generate_auth_token PhoneNumber PasswordHash e = Ret token e' →
  token = drawn e (env.tick e) ∧ e' = env.next e.
Proof.
  unfold generate_auth_token, mbind, M_bind, rand_Read, ask.
  destruct (env.rand_err e _); [discriminate |]. by intros [= <- <-].
Qed.

Lemma generate_refresh_token_inv e token e' :
  generate_refresh_token e = Ret token e' →
  token = drawn e (env.tick e) ∧ e' = env.next e.
Proof.
  unfold generate_refresh_token, mbind, M_bind, rand_Read, ask.
  destruct (env.rand_err e _); [discriminate |]. by intros [= <- <-].
Qed.

End generation_facts.

Section sign_in_facts.
Context {S : Type} `{TokenStorage S}.
Import AuthServer.

(** [SignIn] step by step, when the entropy source delivers. *)
Lemma SignIn_run (PhoneNumber PasswordHash : string) (p : process) result s' :
  let e := world p in
  let i := env.tick e in
  env.rand_err e i = None →
  env.rand_err e (Datatypes.S i) = None →
  StoreRefreshToken (drawn e (Datatypes.S i))
    {| UserID := PhoneNumber;
       PhoneNumber := PhoneNumber;
       CreatedAt := env.clock e (Datatypes.S (Datatypes.S i));
       ExpiresAt := time.Add (env.clock e (Datatypes.S (Datatypes.S (Datatypes.S i))))
                      (30 * 24 * time.Hour);
       IsYandexUser := false;
       YandexToken := None |}
    (tokenStorage (server p)) = (result, s') →
  SignIn PhoneNumber PasswordHash p
  = match result with
    | Some _ =>
        Ret (inr (Response_Error "failed to store refresh token"))
          {| server := {| tokenStorage := s';
                          tokenUpdateChan := tokenUpdateChan (server p);
                          rateLimiter := rateLimiter (server p) |};
             world := Nat.iter 4 env.next e |}
    | None =>
        Ret (inr (Response_Token {|
               authenticate_proto.AuthToken := drawn e i;
               authenticate_proto.RefreshToken := drawn e (Datatypes.S i);
               authenticate_proto.ExpiresAt :=
                 time.Add (env.clock e (4 + i)) (24 * time.Hour) |}))
          {| server := {| tokenStorage := s';
                          tokenUpdateChan := tokenUpdateChan (server p);
                          rateLimiter := rateLimiter (server p) |};
             world := Nat.iter 5 env.next e |}
    end.
Proof.
  intros e i Hauth Hrefresh Hput.
  unfold SignIn, mbind, M_bind, in_world, on_storage.
  rewrite (generate_auth_token_ok _ _ _ Hauth). cbn.
  rewrite (generate_refresh_token_ok (env.next e) Hrefresh). cbn.
  rewrite !drawn_next. fold e i. rewrite Hput.
  by destruct result.
Qed.

(** C9. [SignIn] and [SignUp] verify nothing. The auth token they
    generate is the same whatever phone number and password hash are
    passed; their whole outcome is the same for every password hash; and
    when the entropy source delivers the two tokens and the storage
    accepts the put of the record under the new refresh token, both
    return the new pair: the auth token and the refresh token just
    drawn, with an expiry 24 hours after the clock reading. *)
Theorem sign_in_sign_up_verify_nothing
    (PhoneNumber PasswordHash : string) (p : process) :
  let e := world p in
  let i := env.tick e in
  let tokenInfo := {|
    UserID := PhoneNumber;
    PhoneNumber := PhoneNumber;
    CreatedAt := env.clock e (i + 2);
    ExpiresAt := time.Add (env.clock e (i + 3)) (30 * 24 * time.Hour);
    IsYandexUser := false;
    YandexToken := None |} in
  let put :=
    StoreRefreshToken (drawn e (i + 1)) tokenInfo (tokenStorage (server p)) in
  let reply := inr (Response_Token {|
    authenticate_proto.AuthToken := drawn e i;
    authenticate_proto.RefreshToken := drawn e (i + 1);
    authenticate_proto.ExpiresAt :=
      time.Add (env.clock e (i + 4)) (24 * time.Hour) |}) in
  let p' := {|
    server := {| tokenStorage := put.2;
                 tokenUpdateChan := tokenUpdateChan (server p);
                 rateLimiter := rateLimiter (server p) |};
    world := Nat.iter 5 env.next e |} in
  (∀ PhoneNumber' PasswordHash',
      generate_auth_token PhoneNumber PasswordHash
      = generate_auth_token PhoneNumber' PasswordHash')
  ∧ (∀ PasswordHash',
        SignIn PhoneNumber PasswordHash p = SignIn PhoneNumber PasswordHash' p
        ∧ SignUp PhoneNumber PasswordHash p = SignUp PhoneNumber PasswordHash' p)
  ∧ (env.rand_err e i = None → env.rand_err e (i + 1) = None →
     put.1 = None →
     SignIn PhoneNumber PasswordHash p = Ret reply p'
     ∧ SignUp PhoneNumber PasswordHash p = Ret reply p').
Proof.
  intros e i tokenInfo put reply p'. split; [done |]. split; [done |].
  intros Hauth Hrefresh Hput.
  assert (Hrun : SignIn PhoneNumber PasswordHash p = Ret reply p').
  { subst reply p' put tokenInfo.
    replace (i + 4)%nat with (4 + i)%nat by lia.
    replace (i + 3)%nat with (Datatypes.S (Datatypes.S (Datatypes.S i))) in * by lia.
    replace (i + 2)%nat with (Datatypes.S (Datatypes.S i)) in * by lia.
    replace (i + 1)%nat with (Datatypes.S i) in * by lia.
    destruct (StoreRefreshToken _ _ _) as [result s'] eqn:Hres.
    simpl in Hput. subst result.
    by rewrite (SignIn_run PhoneNumber PasswordHash p None s' Hauth Hrefresh Hres). }
  split; [exact Hrun | exact Hrun].
Qed.

End sign_in_facts.

Section sign_in_witness.
Import (hints) InMemoryTokenStorage.
Import AuthServer.

Lemma sign_in_sign_up_verify_nothing_witness :
  let p := scenario.boot (scenario.quiet 0) in
  let reply := inr (Response_Token {|
    authenticate_proto.AuthToken :=
      "AAACAwQFBgcICQoLDA0ODxAREhMUFRYXGBkaGxwdHh8=";
    authenticate_proto.RefreshToken :=
      "AQADBAUGBwgJCgsMDQ4PEBESExQVFhcYGRobHB0eHyA=";
    authenticate_proto.ExpiresAt := 4000000 + 24 * time.Hour |}) in
  (∃ p', SignIn "+7900" "hash" p = Ret reply p')
  ∧ (∃ p', SignUp "+7900" "another hash" p = Ret reply p').
Proof.
  intros p reply.
  destruct (sign_in_sign_up_verify_nothing "+7900" "hash" p)
    as (_ & _ & Hin).
  destruct (sign_in_sign_up_verify_nothing "+7900" "another hash" p)
    as (_ & _ & Hup).
  split.
  - eexists. apply Hin; vm_compute; reflexivity.
  - eexists. apply Hup; vm_compute; reflexivity.
Defined.

End sign_in_witness.

(** ** The rotation worker *)

Section worker_facts.
Import AuthServer.
Import (hints) spy.
Context {S : Type} `{TokenStorage S}.

(** One request, seen through the recording storage. *)
Lemma tokenUpdate_watched update (w : spy.t S) :
  let put := StoreRefreshToken (newToken update) (info update) (spy.inner w) in
  tokenUpdate update w
  = match put.1 with
    | Some err =>
        {| spy.inner := put.2;
           spy.calls := (spy.calls w ++
             [spy.Store (newToken update) (info update) (Some err)])%list |}
    | None =>
        let del := DeleteToken (oldToken update) put.2 in
        {| spy.inner := del.2;
           spy.calls := (spy.calls w ++
             [spy.Store (newToken update) (info update) None;
              spy.Delete (oldToken update) del.1])%list |}
    end.
Proof.
  unfold tokenUpdate. simpl. unfold spy.record.
  destruct (StoreRefreshToken _ _ (spy.inner w)) as [[err|] s1]; simpl; [done |].
  destruct (DeleteToken _ s1) as [result s2]; simpl.
  by rewrite <- app_assoc.
Qed.

Lemma tokenUpdate_inner update (w : spy.t S) :
  spy.inner (tokenUpdate update w) = tokenUpdate update (spy.inner w).
Proof.
  rewrite tokenUpdate_watched. unfold tokenUpdate.
  destruct (StoreRefreshToken _ _ (spy.inner w)) as [[err|] s1]; simpl; [done |].
  by destruct (DeleteToken _ s1).
Qed.

Lemma tokenUpdateWorker_watched updates : ∀ w : spy.t S,
  ∃ calls,
    spy.calls (tokenUpdateWorker updates w) = (spy.calls w ++ calls)%list
    ∧ spy.rotation updates calls
    ∧ spy.inner (tokenUpdateWorker updates w)
      = tokenUpdateWorker updates (spy.inner w).
Proof.
  induction updates as [|update updates IH]; intros w; simpl.
  - exists []. rewrite app_nil_r. repeat split. constructor.
  - destruct (IH (tokenUpdate update w)) as (calls & Hcalls & Hrot & Hinner).
    rewrite Hcalls, Hinner, tokenUpdate_inner.
    rewrite tokenUpdate_watched.
    destruct (StoreRefreshToken _ _ (spy.inner w)) as [[err|] s1]; simpl.
    + eexists. rewrite <- app_assoc. repeat split. simpl. by constructor.
    + eexists. rewrite <- app_assoc. repeat split. simpl. by constructor.
Qed.

(** C1. On any storage, the calls the rotation worker makes for the
    requests it receives are, request by request in the order received:
    the put of the new session under the new key and, only when that put
    succeeded, the delete of the old key. After a failed put the worker
    makes no further call for that request: the old key is not deleted
    and the put is not tried again. A delete that fails changes nothing
    to what follows: the remaining requests are processed. The recording
    of the calls does not alter what the worker does to the storage. *)
Theorem rotation_worker_put_then_delete
    (updates : list tokenUpdateRequest) (s : S) :
  let w := tokenUpdateWorker updates (spy.watch s) in
  spy.rotation updates (spy.calls w)
  ∧ spy.inner w = tokenUpdateWorker updates s.
Proof.
  destruct (tokenUpdateWorker_watched updates (spy.watch s))
    as (calls & Hcalls & Hrot & Hinner).
  simpl in *. by rewrite Hcalls.
Qed.

End worker_facts.

Section worker_in_memory.
Import AuthServer.
Import (hints) InMemoryTokenStorage.

(** On the in-process store a put that fails leaves every record as it
    was, so the session under the old key stays. *)
Lemma rotation_abandoned_in_memory update (s : InMemoryTokenStorage.t) err :
  (InMemoryTokenStorage.StoreRefreshToken (newToken update) (info update) s).1
  = Some err →
  tokenUpdate update s = s.
Proof.
  intros Hfail. unfold tokenUpdate. simpl.
  pose proof (store_error_unchanged s _ _ err Hfail) as Hsame.
  destruct (InMemoryTokenStorage.StoreRefreshToken _ _ s) as [result s1].
  simpl in *. by subst.
Qed.

(** And a put that succeeds is followed by the delete of the old key. *)
Lemma rotation_applied_in_memory update (s : InMemoryTokenStorage.t) :
  (InMemoryTokenStorage.StoreRefreshToken (newToken update) (info update) s).1
  = None →
  InMemoryTokenStorage.tokens (tokenUpdate update s)
  = delete (oldToken update)
      (<[newToken update := info update]> (InMemoryTokenStorage.tokens s)).
Proof.
  unfold tokenUpdate. simpl. unfold InMemoryTokenStorage.StoreRefreshToken.
  destruct (_ <=? _); [discriminate |].
  by destruct (_ || _); [discriminate |].
Qed.

End worker_in_memory.

(** ** RefreshToken: the checks before the rotation *)

Section refresh_checks.
Import AuthServer.
Context {S : Type} `{TokenStorage S}.

(** The state after the rate limiter has counted a call for [key]. *)
Lemma rateLimiter_Allow_run key (p : @process S) :
  let verdict :=
    RateLimiter.Allow (env.clock (world p) (env.tick (world p))) key
      (rateLimiter (server p)) in
  rateLimiter_Allow key p
  = Ret verdict.1
      {| server := {| tokenStorage := tokenStorage (server p);
                      tokenUpdateChan := tokenUpdateChan (server p);
                      rateLimiter := verdict.2 |};
         world := env.next (world p) |}.
Proof.
  unfold rateLimiter_Allow, mbind, M_bind, in_world, on_rateLimiter. simpl.
  by destruct (RateLimiter.Allow _ _ _).
Qed.

Lemma RefreshToken_rate_limited key (p : @process S) :
  let verdict :=
    RateLimiter.Allow (env.clock (world p) (env.tick (world p))) key
      (rateLimiter (server p)) in
  verdict.1 = false →
  RefreshToken key p
  = Ret (inr (Response_Error "rate limit exceeded"))
      {| server := {| tokenStorage := tokenStorage (server p);
                      tokenUpdateChan := tokenUpdateChan (server p);
                      rateLimiter := verdict.2 |};
         world := env.next (world p) |}.
Proof.
  intros verdict Hdeny. unfold RefreshToken, mbind at 1, M_bind at 1.
  rewrite rateLimiter_Allow_run. fold verdict. by rewrite Hdeny.
Qed.

Lemma RefreshToken_empty (p : @process S) :
  let verdict :=
    RateLimiter.Allow (env.clock (world p) (env.tick (world p))) ""
      (rateLimiter (server p)) in
  verdict.1 = true →
  RefreshToken "" p
  = Ret (inr (Response_Error "refresh token is required"))
      {| server := {| tokenStorage := tokenStorage (server p);
                      tokenUpdateChan := tokenUpdateChan (server p);
                      rateLimiter := verdict.2 |};
         world := env.next (world p) |}.
Proof.
  intros verdict Hallow. unfold RefreshToken, mbind at 1, M_bind at 1.
  rewrite rateLimiter_Allow_run. fold verdict. by rewrite Hallow.
Qed.


(** C3, as the code has it. A [RefreshToken] call with an empty token
    leaves the token storage and the rotation queue as they were, but not
    the rate limiter, which counts the call under the empty key first
    (old timestamps are dropped, and the call's own is recorded when it
    is admitted); the call is answered with the validation error when the
    rate limiter admits it, and with the rate-limit error otherwise. *)
Theorem refresh_empty_token_counted (p : @process S) :
  let now := env.clock (world p) (env.tick (world p)) in
  let verdict := RateLimiter.Allow now "" (rateLimiter (server p)) in
  RefreshToken "" p
  = Ret (inr (Response_Error
           (if verdict.1 then "refresh token is required"
            else "rate limit exceeded")))
      {| server := {| tokenStorage := tokenStorage (server p);
                      tokenUpdateChan := tokenUpdateChan (server p);
                      rateLimiter := verdict.2 |};
         world := env.next (world p) |}
  ∧ RateLimiter.get "" verdict.2
    = (List.filter
         (λ t, time.After t
                 (time.Add now (- RateLimiter.window (rateLimiter (server p)))))
         (RateLimiter.get "" (rateLimiter (server p)))
       ++ (if verdict.1 then [now] else []))%list.
Proof.
  intros now verdict. split; [| apply Allow_get].
  destruct verdict.1 eqn:Hverdict.
  - by apply RefreshToken_empty.
  - by apply RefreshToken_rate_limited.
Qed.

End refresh_checks.

Section refresh_checks_in_memory.
Import AuthServer.
Import (hints) InMemoryTokenStorage spy unreliable.

Abbreviation process := (@AuthServer.process InMemoryTokenStorage.t).

(** C3 fails as stated: on a server that has just started, a call with an
    empty token is answered with the validation error and leaves its
    timestamp in the rate limiter, under the empty key; and once 60 such
    calls were made within the minute, the next one is answered with the
    rate-limit error, not with the validation error. *)
Lemma refresh_empty_token_changes_rate_limiter :
  let p : process := scenario.boot (scenario.quiet 0) in
  let call := RefreshToken "" p in
  result call = Some (inr (Response_Error "refresh token is required"))
  ∧ RateLimiter.get "" (rateLimiter (server p)) = []
  ∧ (λ p' : process, RateLimiter.get "" (rateLimiter (server p'))) <$> final call
    = Some [0]
  ∧ (λ p' : process, rateLimiter (server p')) <$> final call
    ≠ Some (rateLimiter (server p))
  ∧ result ((_ ← times 60 (RefreshToken ""); RefreshToken "") p)
    = Some (inr (Response_Error "rate limit exceeded")).
Proof.
  intros p call. split; [| split; [| split; [| split]]].
  - vm_compute. reflexivity.
  - reflexivity.
  - vm_compute. reflexivity.
  - intros Heq.
    apply (f_equal (fmap (M := option) (RateLimiter.get ""))) in Heq.
    vm_compute in Heq. discriminate.
  - vm_compute. reflexivity.
Qed.




End refresh_checks_in_memory.

(** ** Refresh-token keys of a password-based service *)

Section password_based_runs.
Import AuthServer service.
Import (hints) InMemoryTokenStorage.














End password_based_runs.

Section refresh_rotation.
Import AuthServer.
Context {S : Type} `{TokenStorage S}.



End refresh_rotation.

Section password_based_keys.
Import AuthServer service.
Import (hints) InMemoryTokenStorage.



End password_based_keys.

Section password_based_witness.
Import AuthServer service.
Import (hints) InMemoryTokenStorage.

Lemma survives_after evs (p : process) :
  survives evs p = true → exec evs p = Some (after evs p).
Proof.
  unfold survives, after. intros Hrun%bool_decide_eq_true_1.
  by destruct Hrun as [p' ->].
Qed.



End password_based_witness.

Section worker_witness.
Import AuthServer.
Import (hints) spy unreliable.

(** Three rotations on a store behind a connection that drops the second
    and the third call: the first request is applied but its old key
    survives the failed delete, the second is abandoned after its failed
    put, the third is applied in full. *)
Lemma rotation_worker_put_then_delete_witness :
  let session user := mkTokenInfo user user 0 (30 * scenario.day) false None in
  let fill := {[ "old-1" := session "+71"; "old-2" := session "+72";
                 "old-3" := session "+73" ]} in
  let s := {| unreliable.store :=
                {| InMemoryTokenStorage.tokens := fill;
                   InMemoryTokenStorage.maxSize := 10000 |};
              unreliable.faults := [false; true; true; false; false] |} in
  let updates := [mkUpdate "old-1" "new-1" (session "+71");
                  mkUpdate "old-2" "new-2" (session "+72");
                  mkUpdate "old-3" "new-3" (session "+73")] in
  let w := tokenUpdateWorker updates (spy.watch s) in
  spy.calls w
  = [spy.Store "new-1" (session "+71") None;
     spy.Delete "old-1" (Some unreliable.down);
     spy.Store "new-2" (session "+72") (Some unreliable.down);
     spy.Store "new-3" (session "+73") None;
     spy.Delete "old-3" None]
  ∧ elements (dom (InMemoryTokenStorage.tokens (unreliable.store (spy.inner w))))
    ≡ₚ ["old-1"; "old-2"; "new-1"; "new-3"]
  ∧ spy.rotation updates (spy.calls w)
  ∧ spy.inner w = tokenUpdateWorker updates s.
Proof.
  intros session fill s updates w.
  split; [vm_compute; reflexivity |].
  split; [by vm_compute; apply (bool_decide_unpack _) |].
  exact (rotation_worker_put_then_delete updates s).
Defined.

End worker_witness.

(* ===================================================================== *)
(** * Further properties *)
(* ===================================================================== *)

(** ** The in-process token store: puts, gets, deletes and sweeps *)

Section in_memory_round_trips.
Import InMemoryTokenStorage.

Lemma store_accepts_iff s token info :
  (StoreRefreshToken token info s).1 = None
  ↔ len s < maxSize s ∧ UserID info ≠ "" ∧ PhoneNumber info ≠ "".
Proof.
  unfold StoreRefreshToken.
  destruct (Z.leb_spec (maxSize s) (len s)) as [Hfull | Hroom]; simpl.
  { split; [done | lia]. }
  destruct (String.eqb_spec (UserID info) "") as [Hu | Hu]; simpl.
  { split; [done | tauto]. }
  destruct (String.eqb_spec (PhoneNumber info) "") as [Hp | Hp]; simpl.
  { split; [done | tauto]. }
  tauto.
Qed.

Lemma store_accepted_tokens s token info :
  (StoreRefreshToken token info s).1 = None →
  tokens (StoreRefreshToken token info s).2 = <[token := info]> (tokens s).
Proof.
  unfold StoreRefreshToken. destruct (_ <=? _); [done |].
  by destruct (_ || _).
Qed.

Lemma store_rejected_unchanged s token info :
  (StoreRefreshToken token info s).1 ≠ None →
  (StoreRefreshToken token info s).2 = s.
Proof.
  unfold StoreRefreshToken. destruct (_ <=? _); [done |].
  by destruct (_ || _).
Qed.

(** X1. A put on the in-process store is accepted exactly when the store
    is below its capacity and the record names a user and a phone number.
    An accepted put is read back by a get of the same key, which leaves
    the store alone, and changes the record of no other key; a rejected
    put changes nothing. *)
Theorem in_memory_put_then_get s token info :
  let put := StoreRefreshToken token info s in
  (put.1 = None ↔ len s < maxSize s ∧ UserID info ≠ "" ∧ PhoneNumber info ≠ "")
  ∧ (put.1 = None →
     GetTokenInfo token put.2 = (inr info, put.2)
     ∧ ∀ token', token' ≠ token → tokens put.2 !! token' = tokens s !! token')
  ∧ (put.1 ≠ None → put.2 = s).
Proof.
  intros put. split; [apply store_accepts_iff |]. split.
  - intros Hok. unfold GetTokenInfo, put.
    rewrite (store_accepted_tokens _ _ _ Hok). rewrite lookup_insert_eq.
    split; [done |]. intros token' Hne. by rewrite lookup_insert_ne.
  - apply store_rejected_unchanged.
Qed.

(** X2. A delete on the in-process store never fails. After it a get of
    the key reports that the token is not found, the records of the other
    keys are as before, and a second delete changes nothing more; deleting
    a key that has no record leaves the store as it was. *)
Theorem in_memory_delete_then_get s token :
  let del := DeleteToken token s in
  del.1 = None
  ∧ GetTokenInfo token del.2 = (inl "token not found", del.2)
  ∧ (∀ token', token' ≠ token → tokens del.2 !! token' = tokens s !! token')
  ∧ DeleteToken token del.2 = del
  ∧ (tokens s !! token = None → del.2 = s).
Proof.
  intros del. split; [done |]. split.
  { unfold GetTokenInfo. simpl. by rewrite lookup_delete_eq. }
  split.
  { intros token' Hne. simpl. by rewrite lookup_delete_ne. }
  split.
  { unfold del, DeleteToken. simpl. by rewrite delete_delete_eq. }
  intros Habsent. unfold del, DeleteToken. simpl.
  rewrite delete_id by done. by destruct s.
Qed.

Lemma cleanup_lookup now s token :
  tokens (cleanupExpiredTokens now s) !! token
  = match tokens s !! token with
    | Some info => if time.After now (ExpiresAt info) then None else Some info
    | None => None
    end.
Proof.
  simpl. destruct (tokens s !! token) as [info|] eqn:Hin.
  - destruct (time.After now (ExpiresAt info)) eqn:Hexp.
    + apply map_lookup_filter_None. right. intros info' Hin' Hkeep.
      simpl in *. congruence.
    + by apply map_lookup_filter_Some.
  - apply map_lookup_filter_None. by left.
Qed.

Lemma cleanup_ext now now' s s' :
  maxSize s = maxSize s' →
  (∀ token, tokens (cleanupExpiredTokens now s) !! token
            = tokens (cleanupExpiredTokens now' s') !! token) →
  cleanupExpiredTokens now s = cleanupExpiredTokens now' s'.
Proof.
  intros Hmax Hext. unfold cleanupExpiredTokens. rewrite Hmax. f_equal.
  apply map_eq. intros token. apply Hext.
Qed.

(** X3. A sweep of the in-process store at [now] keeps exactly the records
    that [now] is not after: a record that expires at [now] itself stays.
    A sweep adds no record and leaves the capacity alone; sweeping twice at
    the same time is sweeping once, and a sweep followed by a later sweep
    is the later sweep. *)
Theorem cleanup_keeps_the_unexpired now s :
  (∀ token,
      tokens (cleanupExpiredTokens now s) !! token
      = match tokens s !! token with
        | Some info => if Z.ltb (ExpiresAt info) now then None else Some info
        | None => None
        end)
  ∧ len (cleanupExpiredTokens now s) ≤ len s
  ∧ maxSize (cleanupExpiredTokens now s) = maxSize s
  ∧ cleanupExpiredTokens now (cleanupExpiredTokens now s)
    = cleanupExpiredTokens now s
  ∧ (∀ later, now ≤ later →
       cleanupExpiredTokens later (cleanupExpiredTokens now s)
       = cleanupExpiredTokens later s).
Proof.
  split; [apply cleanup_lookup |]. split.
  { unfold len. simpl.
    pose proof (map_size_filter
                  (λ kv : string * TokenInfo,
                     time.After now (ExpiresAt kv.2) = false) (tokens s)). lia. }
  split; [done |].
  assert (Hlater : ∀ later, now ≤ later →
            cleanupExpiredTokens later (cleanupExpiredTokens now s)
            = cleanupExpiredTokens later s).
  { intros later Hle. apply cleanup_ext; [done |]. intros token.
    rewrite !cleanup_lookup.
    destruct (tokens s !! token) as [info|]; [| done]. unfold time.After.
    destruct (Z.ltb_spec (ExpiresAt info) now);
      destruct (Z.ltb_spec (ExpiresAt info) later); try done; lia. }
  split; [| exact Hlater]. apply Hlater. lia.
Qed.

Lemma len_delete_present s token :
  is_Some (tokens s !! token) → len (DeleteToken token s).2 = len s - 1.
Proof.
  intros [info Hin]. unfold len. simpl.
  pose proof (map_size_delete token (tokens s)) as Hsize.
  rewrite Hin in Hsize. simpl in Hsize.
  assert (size (tokens s) ≠ 0%nat).
  { intros Hzero%map_size_empty_inv. by rewrite Hzero in Hin. }
  lia.
Qed.

Lemma len_cleanup_expired s token info now :
  tokens s !! token = Some info →
  time.After now (ExpiresAt info) = true →
  len (cleanupExpiredTokens now s) < len s.
Proof.
  intros Hin Hexp.
  assert (Hsub : tokens (cleanupExpiredTokens now s) ⊆ delete token (tokens s)).
  { apply map_subseteq_spec. intros token' info'. rewrite cleanup_lookup.
    destruct (decide (token' = token)) as [-> | Hne].
    - rewrite Hin, Hexp. done.
    - rewrite lookup_delete_ne by done.
      destruct (tokens s !! token') as [i|]; [| done].
      by destruct (time.After now (ExpiresAt i)). }
  apply map_subseteq_size in Hsub.
  pose proof (len_delete_present s token (ex_intro _ info Hin)) as Hlen.
  unfold len in *. simpl in *. lia.
Qed.

(** X4. Room in a full in-process store comes back with a delete or a
    sweep: on a store within its capacity, once a key that has a record is
    deleted, or a sweep runs at a time after the expiry of one of the
    records, the put of a record that names a user and a phone number is
    accepted. *)
Theorem in_memory_capacity_comes_back s token session now token' info :
  len s ≤ maxSize s →
  tokens s !! token = Some session →
  UserID info ≠ "" → PhoneNumber info ≠ "" →
  (StoreRefreshToken token' info (DeleteToken token s).2).1 = None
  ∧ (time.After now (ExpiresAt session) = true →
     (StoreRefreshToken token' info (cleanupExpiredTokens now s)).1 = None).
Proof.
  intros Hinv Hin Huser Hphone. split.
  - apply store_accepts_iff. split; [| done].
    rewrite len_delete_present by eauto. simpl. lia.
  - intros Hexp. apply store_accepts_iff. split; [| done].
    pose proof (len_cleanup_expired s token session now Hin Hexp). simpl. lia.
Qed.

Lemma full_lookup (k : nat) :
  (k < 100 * 100)%nat →
  tokens scenario.full !! pretty k
  = Some (mkTokenInfo "+7900" "+7900" 0 (30 * scenario.day) false None).
Proof.
  intros Hk. unfold scenario.full, tokens.
  apply elem_of_list_to_map_1.
  - rewrite <- list_fmap_compose.
    apply (NoDup_fmap_2 (λ k : nat, pretty k)), NoDup_seq.
  - apply list_elem_of_fmap. exists k. split; [done |].
    apply elem_of_seq. lia.
Qed.

Lemma in_memory_capacity_comes_back_witness :
  let info := mkTokenInfo "+7901" "+7901" 0 10 false None in
  (StoreRefreshToken "one more" info scenario.full).1
  = Some "token storage is at capacity"
  ∧ (StoreRefreshToken "one more" info
       (DeleteToken "42" scenario.full).2).1 = None
  ∧ (StoreRefreshToken "one more" info
       (cleanupExpiredTokens (31 * scenario.day) scenario.full)).1 = None.
Proof.
  intros info.
  assert (Hfull : maxSize scenario.full ≤ len scenario.full).
  { rewrite full_len. unfold scenario.full, maxSize. lia. }
  assert (Hinv : len scenario.full ≤ maxSize scenario.full).
  { rewrite full_len. unfold scenario.full, maxSize. lia. }
  assert (Hin : tokens scenario.full !! "42"
                = Some (mkTokenInfo "+7900" "+7900" 0 (30 * scenario.day)
                          false None)).
  { apply (full_lookup 42). lia. }
  destruct (in_memory_capacity_comes_back scenario.full "42" _
              (31 * scenario.day) "one more" info Hinv Hin)
    as [Hdel Hsweep]; [done | done |].
  pose proof (store_at_capacity scenario.full "one more" info Hfull) as Hcap.
  split; [exact (f_equal fst Hcap) |].
  split; [exact Hdel |]. apply Hsweep. reflexivity.
Defined.

Lemma apply_records_have_subject o s :
  (∀ token info, tokens s !! token = Some info →
     UserID info ≠ "" ∧ PhoneNumber info ≠ "") →
  ∀ token info, tokens (apply o s) !! token = Some info →
    UserID info ≠ "" ∧ PhoneNumber info ≠ "".
Proof.
  intros Hinv token info. destruct o as [token' info' | | |]; simpl.
  - destruct ((StoreRefreshToken token' info' s).1) as [err|] eqn:Hput.
    + rewrite store_rejected_unchanged by congruence. apply Hinv.
    + rewrite store_accepted_tokens by done.
      apply store_accepts_iff in Hput. destruct Hput as (_ & Hu & Hp).
      rewrite lookup_insert. case_decide; [by intros [= <-] | apply Hinv].
  - rewrite get_unchanged. apply Hinv.
  - rewrite lookup_delete. case_decide; [done | apply Hinv].
  - rewrite map_lookup_filter_Some. intros [Hin _]. by eapply Hinv.
Qed.

(** X5. Whatever puts, gets, deletes and sweeps a new in-process store
    goes through, every record it holds names a user and a phone number:
    a session without them is never stored. *)
Theorem in_memory_records_have_subject ops token info :
  tokens (run ops) !! token = Some info →
  UserID info ≠ "" ∧ PhoneNumber info ≠ "".
Proof.
  revert token info. induction ops as [|o ops IH] using rev_ind.
  - intros token info. unfold run. simpl. by rewrite lookup_empty.
  - rewrite run_snoc. by apply apply_records_have_subject.
Qed.

Lemma in_memory_records_have_subject_witness :
  let anonymous := mkTokenInfo "" "+7900" 0 10 false None in
  let named := mkTokenInfo "42" "+7900" 0 10 false None in
  let ops := [OpStore "a" anonymous; OpStore "b" named; OpSweep 5] in
  tokens (run ops) !! "a" = None
  ∧ tokens (run ops) !! "b" = Some named
  ∧ UserID named ≠ "" ∧ PhoneNumber named ≠ "".
Proof.
  intros anonymous named ops.
  assert (Hb : tokens (run ops) !! "b" = Some named) by (vm_compute; reflexivity).
  split; [vm_compute; reflexivity |]. split; [exact Hb |].
  exact (in_memory_records_have_subject ops "b" named Hb).
Defined.

End in_memory_round_trips.

(** ** The rate limiter under traffic *)

Section rate_limiter_traffic.
Import RateLimiter.

Lemma filter_keeps_all {A} (f : A → bool) (l : list A) :
  (∀ a, a ∈ l → f a = true) → List.filter f l = l.
Proof.
  induction l as [|a l IH]; intros Hall; simpl; [done |].
  rewrite Hall by apply list_elem_of_here.
  rewrite IH; [done |]. intros b Hb. apply Hall. by apply list_elem_of_further.
Qed.

Lemma filter_drops_all {A} (f : A → bool) (l : list A) :
  (∀ a, a ∈ l → f a = false) → List.filter f l = [].
Proof.
  induction l as [|a l IH]; intros Hall; simpl; [done |].
  rewrite Hall by apply list_elem_of_here.
  apply IH. intros b Hb. apply Hall. by apply list_elem_of_further.
Qed.

Lemma filter_length_bound {A} (f : A → bool) (l : list A) :
  (length (List.filter f l) ≤ length l)%nat.
Proof.
  induction l as [|a l IH]; simpl; [done |]. destruct (f a); simpl; lia.
Qed.

Lemma burst_verdicts key times : ∀ rl,
  (∀ a t, a ∈ get key rl → t ∈ times → t - window rl < a) →
  (∀ t u, t ∈ times → u ∈ times → t - window rl < u) →
  (traffic.verdicts (pair key <$> times) rl).1
  = (λ j : nat, bool_decide (Z.of_nat (length (get key rl) + j) < limit rl))
      <$> seq 0 (length times).
Proof.
  induction times as [|now times IH]; intros rl Hold Hpair; [done |].
  simpl. set (r := Allow now key rl).
  assert (Hkeep : List.filter (λ t, time.After t (time.Add now (- window rl)))
                    (get key rl) = get key rl).
  { apply filter_keeps_all. intros a Ha. apply Z.ltb_lt.
    unfold time.Add. specialize (Hold a now Ha (list_elem_of_here _ _)). lia. }
  assert (Hverdict : r.1 = bool_decide (Z.of_nat (length (get key rl)) < limit rl)).
  { unfold r. rewrite Allow_admits, Hkeep.
    destruct (Z.leb_spec (limit rl) (Z.of_nat (length (get key rl)))); simpl.
    - by rewrite bool_decide_eq_false_2 by lia.
    - by rewrite bool_decide_eq_true_2 by lia. }
  assert (Hget : get key r.2
                 = (get key rl ++ (if r.1 then [now] else []))%list).
  { unfold r. by rewrite Allow_get, Hkeep. }
  assert (Hlimit : limit r.2 = limit rl) by apply Allow_limit.
  assert (Hwindow : window r.2 = window rl) by apply Allow_window.
  f_equal.
  { rewrite Hverdict. by rewrite Nat.add_0_r. }
  rewrite IH.
  - rewrite Hlimit, Hget, length_app.
    rewrite <- fmap_S_seq, <- list_fmap_compose.
    apply list_fmap_ext. intros _ j _. simpl. apply bool_decide_ext.
    rewrite Hverdict. case_bool_decide; simpl; lia.
  - rewrite Hwindow, Hget.
    intros a t [Ha | Ha]%elem_of_app Ht.
    + apply Hold; [done |]. by apply list_elem_of_further.
    + destruct r.1; [| by apply elem_of_nil in Ha].
      apply list_elem_of_singleton in Ha. subst a.
      apply Hpair; [by apply list_elem_of_further | apply list_elem_of_here].
  - rewrite Hwindow. intros t u Ht Hu.
    apply Hpair; by apply list_elem_of_further.
Qed.

(** X6. On a new rate limiter, when calls for one key come at times that
    lie less than a window apart from one another, in whatever order, the
    calls are admitted until [limit] of them were, and every later one is
    rejected: the call number [j], counting from 0, is admitted exactly
    when [j < limit]. *)
Theorem rate_limiter_admits_limit_per_window
    (window : Duration) (limit : Z) (key : string) (times : list Time) :
  (∀ t u, t ∈ times → u ∈ times → t - u < window) →
  (traffic.verdicts (pair key <$> times) (New window limit)).1
  = (λ j : nat, bool_decide (Z.of_nat j < limit)) <$> seq 0 (length times).
Proof.
  intros Hpair. rewrite burst_verdicts.
  - done.
  - intros a t Ha. by apply elem_of_nil in Ha.
  - simpl. intros t u Ht Hu. specialize (Hpair t u Ht Hu). lia.
Qed.

Lemma rate_limiter_admits_limit_per_window_witness :
  (traffic.verdicts (pair "x" <$> [100; 900; 300; 200; 950])
     (New time.Second 3)).1
  = [true; true; true; false; false].
Proof.
  apply (rate_limiter_admits_limit_per_window time.Second 3 "x"
           [100; 900; 300; 200; 950]).
  intros t u Ht Hu.
  repeat (apply elem_of_cons in Ht as [-> | Ht]);
    try (by apply elem_of_nil in Ht);
    repeat (apply elem_of_cons in Hu as [-> | Hu]);
    try (by apply elem_of_nil in Hu); vm_compute; reflexivity.
Defined.

Lemma Allow_bounded now key key' rl :
  Z.of_nat (length (get key' rl)) ≤ Z.max 0 (limit rl) →
  Z.of_nat (length (get key' (Allow now key rl).2)) ≤ Z.max 0 (limit rl).
Proof.
  intros Hinv. destruct (decide (key = key')) as [<- | Hne].
  - rewrite Allow_get, length_app, Allow_admits.
    pose proof (filter_length_bound
                  (λ t, time.After t (time.Add now (- window rl))) (get key rl)).
    destruct (Z.leb_spec (limit rl)
                (Z.of_nat (length (List.filter
                   (λ t, time.After t (time.Add now (- window rl)))
                   (get key rl))))); simpl; lia.
  - by rewrite Allow_get_ne.
Qed.

Lemma verdicts_limit calls : ∀ rl,
  limit (traffic.verdicts calls rl).2 = limit rl.
Proof.
  induction calls as [|[key now] calls IH]; intros rl; simpl; [done |].
  by rewrite IH, Allow_limit.
Qed.

Lemma verdicts_bounded calls key' : ∀ rl,
  Z.of_nat (length (get key' rl)) ≤ Z.max 0 (limit rl) →
  Z.of_nat (length (get key' (traffic.verdicts calls rl).2)) ≤ Z.max 0 (limit rl).
Proof.
  induction calls as [|[key now] calls IH]; intros rl Hinv; simpl; [done |].
  rewrite <- (Allow_limit now key rl). apply IH.
  rewrite Allow_limit. by apply Allow_bounded.
Qed.

(** X7. Whatever calls a new rate limiter answers, for whatever keys and
    at whatever times, it never holds more than [limit] timestamps under
    one key (none when the limit is not positive), and its limit stays as
    it was set. *)
Theorem rate_limiter_holds_at_most_limit
    (window : Duration) (limit : Z) (calls : list (string * Time)) (key : string) :
  let rl := (traffic.verdicts calls (New window limit)).2 in
  Z.of_nat (length (get key rl)) ≤ Z.max 0 limit
  ∧ RateLimiter.limit rl = limit.
Proof.
  intros rl. split.
  - apply (verdicts_bounded calls key (New window limit)).
    unfold get, New; simpl. rewrite lookup_empty. simpl. lia.
  - apply verdicts_limit.
Qed.

(** X8. On a rate limiter whose window is not the least [time.Duration],
    the one value that Go negates to itself: when every timestamp
    recorded under a key is a window or more behind the clock, a call for
    the key is admitted whenever the limit is positive, however many calls
    were recorded, and the key then holds the timestamp of that call
    alone. *)
Theorem rate_limiter_recovers_after_window now key rl :
  - 2 ^ 63 < window rl →
  (∀ t, t ∈ get key rl → t + window rl ≤ now) →
  (Allow now key rl).1 = bool_decide (0 < limit rl)
  ∧ get key (Allow now key rl).2 = (if bool_decide (0 < limit rl) then [now] else []).
Proof.
  intros _ Hold.
  assert (Hdrop : List.filter (λ t, time.After t (time.Add now (- window rl)))
                    (get key rl) = []).
  { apply filter_drops_all. intros t Ht. apply Z.ltb_ge. unfold time.Add.
    specialize (Hold t Ht). lia. }
  assert (Hverdict : (Allow now key rl).1 = bool_decide (0 < limit rl)).
  { rewrite Allow_admits, Hdrop. change (Z.of_nat (length [])) with 0.
    destruct (Z.leb_spec (limit rl) 0); simpl.
    - by rewrite bool_decide_eq_false_2 by lia.
    - by rewrite bool_decide_eq_true_2 by lia. }
  split; [done |]. by rewrite Allow_get, Hdrop, Hverdict.
Qed.

Lemma rate_limiter_recovers_after_window_witness :
  let spent := (traffic.verdicts (pair "x" <$> [100; 200; 300])
                  (New time.Second 2)).2 in
  get "x" spent = [100; 200]
  ∧ (Allow 400 "x" spent).1 = false
  ∧ (Allow (200 + time.Second) "x" spent).1 = true
  ∧ get "x" (Allow (200 + time.Second) "x" spent).2 = [200 + time.Second].
Proof.
  intros spent.
  assert (Hget : get "x" spent = [100; 200]) by (vm_compute; reflexivity).
  destruct (rate_limiter_recovers_after_window (200 + time.Second) "x" spent)
    as [Hverdict Hafter].
  { vm_compute. reflexivity. }
  { rewrite Hget. intros t Ht.
    repeat (apply elem_of_cons in Ht as [-> | Ht]);
      try (by apply elem_of_nil in Ht); vm_compute; discriminate. }
  split; [exact Hget |]. split; [vm_compute; reflexivity |].
  split; [exact Hverdict | exact Hafter].
Defined.

(** X9. The keys of the rate limiter do not interfere: a call for one key
    changes neither the timestamps held under another key nor the answer
    that a call for the other key gets afterwards. *)
Theorem rate_limiter_keys_independent now key now' key' rl :
  key ≠ key' →
  get key' (Allow now key rl).2 = get key' rl
  ∧ (Allow now' key' (Allow now key rl).2).1 = (Allow now' key' rl).1
  ∧ get key' (Allow now' key' (Allow now key rl).2).2
    = get key' (Allow now' key' rl).2.
Proof.
  intros Hne.
  assert (Hsame : get key' (Allow now key rl).2 = get key' rl)
    by by apply Allow_get_ne.
  assert (Hverdict : (Allow now' key' (Allow now key rl).2).1
                     = (Allow now' key' rl).1).
  { by rewrite !Allow_admits, Hsame, Allow_limit, Allow_window. }
  split; [done |]. split; [done |].
  by rewrite !Allow_get, Hsame, Allow_window, Hverdict.
Qed.

Lemma rate_limiter_keys_independent_witness :
  let rl := (traffic.verdicts (pair "x" <$> [100; 200]) (New time.Second 2)).2 in
  (Allow 300 "x" rl).1 = false
  ∧ (Allow 300 "y" rl).1 = true
  ∧ (Allow 300 "y" (Allow 300 "x" rl).2).1 = (Allow 300 "y" rl).1.
Proof.
  intros rl. split; [vm_compute; reflexivity |].
  split; [vm_compute; reflexivity |].
  apply (rate_limiter_keys_independent 300 "x" 300 "y" rl). discriminate.
Defined.

End rate_limiter_traffic.

(** ** Token generation: the base64 encoding *)

Section base64_facts.
Import base64.

Lemma lor_mul_add (x a n : N) :
  (a < 2 ^ n)%N → N.lor (x * 2 ^ n) a = (x * 2 ^ n + a)%N.
Proof.
  intros Ha.
  assert (Hdisjoint : N.land (x * 2 ^ n) a = 0%N).
  { apply N.bits_inj_0. intros i. rewrite N.land_spec.
    destruct (N.lt_ge_cases i n) as [Hlow | Hhigh].
    - by rewrite N.mul_pow2_bits_low.
    - destruct (N.eq_dec a 0%N) as [-> | Hpos].
      + by rewrite N.bits_0, andb_false_r.
      + rewrite (N.bits_above_log2 a i), andb_false_r; [done |].
        apply N.lt_le_trans with n; [| done].
        apply N.log2_lt_pow2; [lia | done]. }
  by rewrite <- N.lxor_lor, <- N.add_nocarry_lxor.
Qed.

Lemma uint_bounded b : (uint b < 256)%N.
Proof. unfold uint. pose proof (Byte.to_N_bounded b). lia. Qed.

Lemma uint_inj b b' : uint b = uint b' → b = b'.
Proof.
  unfold uint. intros Heq.
  assert (Hb : Some b = Some b') by by rewrite <- !Byte.of_to_N, Heq.
  by injection Hb.
Qed.

(** The value of a group of three bytes, and of what is left over. *)
Lemma group3_value b0 b1 b2 :
  N.lor (N.lor (N.shiftl (uint b0) 16) (N.shiftl (uint b1) 8)) (uint b2)
  = (uint b0 * 65536 + uint b1 * 256 + uint b2)%N.
Proof.
  pose proof (uint_bounded b0). pose proof (uint_bounded b1).
  pose proof (uint_bounded b2).
  rewrite !N.shiftl_mul_pow2.
  change (2 ^ 8)%N with 256%N.
  rewrite (lor_mul_add (uint b0) (uint b1 * 256) 16)
    by (change (2 ^ 16)%N with 65536%N; lia).
  change (2 ^ 16)%N with 65536%N.
  replace (uint b0 * 65536 + uint b1 * 256)%N
    with ((uint b0 * 256 + uint b1) * 2 ^ 8)%N
    by (change (2 ^ 8)%N with 256%N; lia).
  rewrite lor_mul_add by (change (2 ^ 8)%N with 256%N; lia).
  change (2 ^ 8)%N with 256%N. lia.
Qed.

Lemma group2_value b0 b1 :
  N.lor (N.shiftl (uint b0) 16) (N.shiftl (uint b1) 8)
  = (uint b0 * 65536 + uint b1 * 256)%N.
Proof.
  pose proof (uint_bounded b0). pose proof (uint_bounded b1).
  rewrite !N.shiftl_mul_pow2.
  change (2 ^ 8)%N with 256%N.
  rewrite (lor_mul_add (uint b0) (uint b1 * 256) 16)
    by (change (2 ^ 16)%N with 65536%N; lia).
  reflexivity.
Qed.

Lemma group1_value b0 : N.shiftl (uint b0) 16 = (uint b0 * 65536)%N.
Proof. by rewrite N.shiftl_mul_pow2. Qed.

Lemma encode_index val :
  encodeURL !! N.to_nat (val `mod` 64) = Some (encode val).
Proof.
  assert (Hlt : (N.to_nat (val `mod` 64) < length encodeURL)%nat).
  { pose proof (N.mod_upper_bound val 64). change (length encodeURL) with 64%nat. lia. }
  apply lookup_lt_is_Some in Hlt. destruct Hlt as [c Hc].
  unfold encode. change 63%N with (N.ones 6). rewrite N.land_ones.
  change (2 ^ 6)%N with 64%N. rewrite nth_lookup, Hc. done.
Qed.

Lemma encodeURL_NoDup : NoDup encodeURL.
Proof. refine (bool_decide_unpack _ _). vm_compute. exact I. Qed.

Lemma encode_inj val val' :
  encode val = encode val' → (val `mod` 64 = val' `mod` 64)%N.
Proof.
  intros Heq. pose proof (encode_index val) as H1.
  pose proof (encode_index val') as H2. rewrite <- Heq in H2.
  pose proof (NoDup_lookup _ _ _ _ encodeURL_NoDup H1 H2). lia.
Qed.

Lemma encode_not_padding val : encode val ≠ StdPadding.
Proof.
  intros Heq. pose proof (encode_index val) as Hin. rewrite Heq in Hin.
  apply list_elem_of_lookup_2 in Hin. revert Hin.
  refine (bool_decide_unpack _ _). vm_compute. exact I.
Qed.

Lemma encode_in_alphabet val : encode val ∈ encodeURL.
Proof. eapply list_elem_of_lookup_2, encode_index. Qed.

(** Lists three elements at a time. *)
Lemma list_ind3 {A} (P : list A → Prop) :
  P [] → (∀ a, P [a]) → (∀ a b, P [a; b]) →
  (∀ a b c l, P l → P (a :: b :: c :: l)) →
  ∀ l, P l.
Proof.
  intros H0 H1 H2 H3. fix IH 1.
  intros [|a [|b [|c l]]]; [done | done | done |]. apply H3, IH.
Qed.

(** X10. The base64 encoding of [n] bytes has four characters for every
    three bytes, the last group padded: [4 * ⌈n / 3⌉] characters. The
    tokens of the service, made of 32 bytes, have 44 characters; they are
    never empty. *)
Theorem base64_length (src : list byte) :
  String.length (EncodeToString src) = (4 * ((length src + 2) / 3))%nat
  ∧ (length src = 32%nat → String.length (EncodeToString src) = 44%nat)
  ∧ (src ≠ [] → EncodeToString src ≠ "").
Proof.
  assert (Hlen : ∀ l : list byte,
            String.length (EncodeToString l) = (4 * ((length l + 2) / 3))%nat).
  { induction l as [| a | a b | a b c l IH] using list_ind3; [done.. |].
    cbn [EncodeToString String.length length]. rewrite IH.
    replace (Datatypes.S (Datatypes.S (Datatypes.S (length l))) + 2)%nat
      with (1 * 3 + (length l + 2))%nat by lia.
    rewrite Nat.div_add_l by done. lia. }
  split; [apply Hlen |]. split.
  - intros H32. by rewrite Hlen, H32.
  - by destruct src as [|a [|b [|c l]]].
Qed.

(** X11. Every character of a base64 encoding is a letter, a digit, [-],
    [_] or the padding [=]: the tokens can be put in a URL as they are. *)
Theorem base64_url_safe (src : list byte) (c : ascii) :
  c ∈ list_ascii_of_string (EncodeToString src) →
  c ∈ encodeURL ∨ c = StdPadding.
Proof.
  induction src as [| a | a b | a b0 c0 l IH] using list_ind3;
    cbn [EncodeToString]; cbv zeta; cbn [list_ascii_of_string].
  - by intros ?%elem_of_nil.
  - intros Hc. repeat (apply elem_of_cons in Hc as [-> | Hc]);
      [left; apply encode_in_alphabet.. | by right | by right
      | by apply elem_of_nil in Hc].
  - intros Hc. repeat (apply elem_of_cons in Hc as [-> | Hc]);
      [left; apply encode_in_alphabet.. | by right
      | by apply elem_of_nil in Hc].
  - intros Hc. do 4 (apply elem_of_cons in Hc as [-> | Hc];
      [left; apply encode_in_alphabet |]). by apply IH.
Qed.

Lemma base64_url_safe_witness :
  EncodeToString ["a"%byte] = "YQ=="
  ∧ ("Q"%char ∈ encodeURL ∨ "Q"%char = StdPadding)
  ∧ ("="%char ∈ encodeURL ∨ "="%char = StdPadding).
Proof.
  split; [reflexivity |].
  split; apply (base64_url_safe ["a"%byte]);
    refine (bool_decide_unpack _ _); vm_compute; exact I.
Defined.

Lemma sextets (v : N) :
  (v < 16777216)%N →
  v = (N.shiftr v 18 `mod` 64 * 262144 + N.shiftr v 12 `mod` 64 * 4096
       + N.shiftr v 6 `mod` 64 * 64 + v `mod` 64)%N.
Proof.
  intros Hv. rewrite !N.shiftr_div_pow2.
  change (2 ^ 18)%N with (64 * 64 * 64)%N. change (2 ^ 12)%N with (64 * 64)%N.
  change (2 ^ 6)%N with 64%N. rewrite <- !N.Div0.div_div.
  pose proof (N.div_mod v 64) as H0.
  pose proof (N.div_mod (v / 64) 64) as H1.
  pose proof (N.div_mod (v / 64 / 64) 64) as H2.
  assert (H3 : (v / 64 / 64 / 64 < 64)%N).
  { rewrite !N.Div0.div_div. apply N.Div0.div_lt_upper_bound. exact Hv. }
  rewrite (N.mod_small _ _ H3).
  generalize dependent (v / 64 / 64 / 64)%N. intros q3 H2 H3.
  generalize dependent (v / 64 / 64)%N. intros q2 H1 H2.
  generalize dependent (v / 64)%N. intros q1 H0 H1.
  generalize dependent (q2 `mod` 64)%N. intros r2 H2.
  generalize dependent (q1 `mod` 64)%N. intros r1 H1.
  generalize dependent (v `mod` 64)%N. intros r0 H0.
  specialize (H0 ltac:(done)). specialize (H1 ltac:(done)).
  specialize (H2 ltac:(done)). lia.
Qed.
Lemma sextets_inj (v v' : N) :
  (v < 16777216)%N → (v' < 16777216)%N →
  (N.shiftr v 18 `mod` 64 = N.shiftr v' 18 `mod` 64)%N →
  (N.shiftr v 12 `mod` 64 = N.shiftr v' 12 `mod` 64)%N →
  (N.shiftr v 6 `mod` 64 = N.shiftr v' 6 `mod` 64)%N →
  (v `mod` 64 = v' `mod` 64)%N →
  v = v'.
Proof.
  intros Hv Hv' H18 H12 H6 H0.
  rewrite (sextets v Hv), (sextets v' Hv'). by rewrite H18, H12, H6, H0.
Qed.

(** The low sextets of a group that was padded. *)
Lemma low_sextet_zero (x : N) : ((x * 64) `mod` 64 = 0)%N.
Proof. apply N.Div0.mod_mul. Qed.

Lemma second_sextet_zero (x : N) : (N.shiftr (x * 4096) 6 `mod` 64 = 0)%N.
Proof.
  rewrite N.shiftr_div_pow2. change (2 ^ 6)%N with 64%N.
  replace (x * 4096)%N with (x * 64 * 64)%N by lia.
  rewrite N.div_mul by done. apply N.Div0.mod_mul.
Qed.

Lemma String_inj4 a b c d s a' b' c' d' s' :
  String a (String b (String c (String d s)))
  = String a' (String b' (String c' (String d' s'))) →
  a = a' ∧ b = b' ∧ c = c' ∧ d = d' ∧ s = s'.
Proof. intros Heq. by injection Heq. Qed.

(** X12. The base64 encoding is injective: two byte strings with the same
    encoding are the same, so two tokens are equal only when the 32 bytes
    they were made of are. *)
Theorem base64_injective (src src' : list byte) :
  EncodeToString src = EncodeToString src' → src = src'.
Proof.
  revert src'.
  induction src as [| a | a b | a b c l IH] using list_ind3;
    intros [|a' [|b' [|c' l']]]; cbn [EncodeToString]; cbv zeta;
    intros Heq; try done; apply String_inj4 in Heq as (H18 & H12 & H6 & H0 & Hrest);
    try (by apply encode_not_padding in H6);
    try (by symmetry in H6; apply encode_not_padding in H6);
    try (by apply encode_not_padding in H0);
    try (by symmetry in H0; apply encode_not_padding in H0).
  - apply encode_inj in H18, H12. rewrite !group1_value in H18, H12.
    pose proof (uint_bounded a). pose proof (uint_bounded a').
    assert (Hv : (uint a * 65536 = uint a' * 65536)%N).
    { apply sextets_inj; [lia | lia | done | done | |].
      - replace (uint a * 65536)%N with (uint a * 16 * 4096)%N by lia.
        replace (uint a' * 65536)%N with (uint a' * 16 * 4096)%N by lia.
        by rewrite !second_sextet_zero.
      - replace (uint a * 65536)%N with (uint a * 1024 * 64)%N by lia.
        replace (uint a' * 65536)%N with (uint a' * 1024 * 64)%N by lia.
        by rewrite !low_sextet_zero. }
    f_equal. apply uint_inj. lia.
  - apply encode_inj in H18, H12, H6. rewrite !group2_value in H18, H12, H6.
    pose proof (uint_bounded a). pose proof (uint_bounded a').
    pose proof (uint_bounded b). pose proof (uint_bounded b').
    assert (Hv : (uint a * 65536 + uint b * 256
                  = uint a' * 65536 + uint b' * 256)%N).
    { apply sextets_inj; [lia | lia | done | done | done |].
      replace (uint a * 65536 + uint b * 256)%N
        with ((uint a * 1024 + uint b * 4) * 64)%N by lia.
      replace (uint a' * 65536 + uint b' * 256)%N
        with ((uint a' * 1024 + uint b' * 4) * 64)%N by lia.
      by rewrite !low_sextet_zero. }
    assert (uint a = uint a') by lia. assert (uint b = uint b') by lia.
    f_equal; [| f_equal]; by apply uint_inj.
  - apply encode_inj in H18, H12, H6, H0. rewrite !group3_value in H18, H12, H6, H0.
    pose proof (uint_bounded a). pose proof (uint_bounded a').
    pose proof (uint_bounded b). pose proof (uint_bounded b').
    pose proof (uint_bounded c). pose proof (uint_bounded c').
    assert (Hv : (uint a * 65536 + uint b * 256 + uint c
                  = uint a' * 65536 + uint b' * 256 + uint c')%N).
    { apply sextets_inj; [lia | lia | done..]. }
    assert (uint a = uint a') by lia. assert (uint b = uint b') by lia.
    assert (uint c = uint c') by lia.
    f_equal; [| f_equal; [| f_equal]]; try by apply uint_inj. by apply IH.
Qed.

Lemma base64_injective_witness :
  EncodeToString ["a"%byte; "b"%byte] = "YWI="
  ∧ ["a"%byte; "b"%byte] = ["a"%byte; "b"%byte]
  ∧ EncodeToString ["a"%byte; "b"%byte] ≠ EncodeToString ["a"%byte; "c"%byte].
Proof.
  split; [reflexivity |]. split.
  - apply (base64_injective ["a"%byte; "b"%byte] ["a"%byte; "b"%byte]).
    reflexivity.
  - intros Heq. apply base64_injective in Heq. discriminate.
Defined.
End base64_facts.

(** ** The upstream provider: refresh and profile *)

Section upstream_outcomes.

(** X13. [refreshYandexToken] always returns. It returns a credential only
    when the credential it was given has a refresh token and the token
    endpoint answered with status 200 and a body that decodes; the
    credential returned has the access token of that answer and never an
    empty refresh token, and one request and one reading of the clock were
    made. When it returns an error the clock was not read, and the
    provider was not contacted if the refresh token was missing. *)
Theorem refreshYandexToken_outcome (yandexToken : oauth2.Token) (e : env.t) :
  ∃ r e',
    refreshYandexToken yandexToken e = Ret r e'
    ∧ match r with
      | inr new =>
          oauth2.RefreshToken yandexToken ≠ ""
          ∧ oauth2.RefreshToken new ≠ ""
          ∧ (∃ Status resp,
               env.token_endpoint e (env.tick e) (oauth2.RefreshToken yandexToken)
               = Response 200 Status (inr resp)
               ∧ oauth2.AccessToken new = access_token resp)
          ∧ e' = env.next (env.next e)
      | inl _ =>
          e' = if String.eqb (oauth2.RefreshToken yandexToken) "" then e
               else env.next e
      end.
Proof.
  unfold refreshYandexToken.
  destruct (String.eqb_spec (oauth2.RefreshToken yandexToken) "") as [Hnone | Hold].
  { by eexists _, _. }
  unfold mbind, M_bind, time_Now, ask.
  destruct (env.token_endpoint e (env.tick e) _)
    as [err | StatusCode Status [err | resp]] eqn:Hresp; simpl.
  - by eexists _, _.
  - destruct (negb _); by eexists _, _.
  - destruct (Z.eqb_spec StatusCode 200) as [-> | Hstatus]; simpl.
    2: { by eexists _, _. }
    eexists _, _. split; [done |]. simpl. split; [done |]. split.
    + destruct (String.eqb_spec (refresh_token resp) ""); done.
    + split; [| done]. by eexists _, _.
Qed.

(** X14. [GetMe] and [GetProfileByToken] differ in one check.
    [GetProfileByToken] refuses an empty access token without contacting
    the provider; with any other token it does what [GetMe] does with the
    same token in its context. [GetMe] sends whatever token its context
    holds, the empty one included, and refuses only a context without a
    token. What either returns after one request is the profile of the
    provider with the avatar id made into a URL, or an error that begins
    with [failed to fetch user profile: failed to]. *)
Theorem profile_handlers_agree (accessToken : string) (e : env.t) :
  profile.GetProfileByToken "" e = Ret (inl "access token is required") e
  ∧ profile.GetMe None e = Ret (inl "unauthorized: no auth token provided") e
  ∧ (accessToken ≠ "" →
     profile.GetProfileByToken accessToken e
     = profile.GetMe (Some accessToken) e)
  ∧ ∃ r,
      profile.GetMe (Some accessToken) e = Ret r (env.next e)
      ∧ match r with
        | inr reply =>
            ∃ Status answer,
              env.info_endpoint e (env.tick e) accessToken
              = Response 200 Status (inr answer)
              ∧ reply = profile.reply answer
        | inl err =>
            ∃ rest, err = "failed to fetch user profile: failed to " ++ rest
        end.
Proof.
  split; [done |]. split; [done |]. split.
  - intros Htoken%String.eqb_neq. unfold profile.GetProfileByToken.
    by rewrite Htoken.
  - unfold profile.GetMe, fetchYandexUserProfile, mbind, M_bind, ask.
    destruct (env.info_endpoint e (env.tick e) accessToken)
      as [err | StatusCode Status [err | answer]] eqn:Hresp; simpl.
    + eexists. split; [done |]. by eexists.
    + destruct (negb _); eexists; (split; [done |]); by eexists.
    + destruct (Z.eqb_spec StatusCode 200) as [-> | Hstatus]; simpl.
      * eexists. split; [done |]. by eexists _, _.
      * eexists. split; [done |]. by eexists.
Qed.

End upstream_outcomes.

(** ** RefreshToken: every way the call ends *)

Section refresh_outcomes.
Import AuthServer.
Context {S : Type} `{TokenStorage S}.

(** The ways a call of [RefreshToken] returns: before the storage is
    read; after a get that failed; after a get that found an expired
    record, which is deleted; and after a get that found a live record,
    with or without a rotation sent to the worker. *)
Lemma RefreshToken_inv key (p p' : @process S) r :
  RefreshToken key p = Ret r p' →
  let verdict :=
    RateLimiter.Allow (env.clock (world p) (env.tick (world p))) key
      (rateLimiter (server p)) in
  rateLimiter (server p') = verdict.2
  ∧ ((tokenStorage (server p') = tokenStorage (server p)
      ∧ tokenUpdateChan (server p') = tokenUpdateChan (server p)
      ∧ (r = inr (Response_Error "rate limit exceeded")
         ∨ r = inr (Response_Error "refresh token is required")))
     ∨ (∃ err,
          GetTokenInfo key (tokenStorage (server p))
          = (inl err, tokenStorage (server p'))
          ∧ tokenUpdateChan (server p') = tokenUpdateChan (server p)
          ∧ r = inr (Response_Error "invalid refresh token"))
     ∨ (∃ session s1 result,
          GetTokenInfo key (tokenStorage (server p)) = (inr session, s1)
          ∧ DeleteToken key s1 = (result, tokenStorage (server p'))
          ∧ tokenUpdateChan (server p') = tokenUpdateChan (server p)
          ∧ r = inr (Response_Error "refresh token expired"))
     ∨ (∃ session,
          GetTokenInfo key (tokenStorage (server p))
          = (inr session, tokenStorage (server p'))
          ∧ ((tokenUpdateChan (server p') = tokenUpdateChan (server p)
              ∧ ((∃ err, r = inl err)
                 ∨ r = inr (Response_Error "failed to refresh Yandex token")
                 ∨ r = inr (Response_Error "invalid Yandex token state")))
             ∨ (∃ data newInfo,
                  r = inr (Response_Token data)
                  ∧ chan.send {| oldToken := key;
                                 newToken := authenticate_proto.RefreshToken data;
                                 info := newInfo |}
                      (tokenUpdateChan (server p))
                    = Some (tokenUpdateChan (server p'))
                  ∧ ExpiresAt newInfo = authenticate_proto.ExpiresAt data
                  ∧ UserID newInfo = UserID session
                  ∧ PhoneNumber newInfo = PhoneNumber session
                  ∧ IsYandexUser newInfo = IsYandexUser session)))).
Proof.
  unfold RefreshToken, rotate.
  unfold mbind at 1, M_bind at 1. rewrite rateLimiter_Allow_run.
  destruct (RateLimiter.Allow _ _ _) as [[] rl]; simpl.
  2: { intros [= <- <-]. simpl. split; [done |]. left. auto. }
  destruct (String.eqb key ""); simpl.
  { intros [= <- <-]. simpl. split; [done |]. left. auto. }
  run_M. simpl.
  destruct (GetTokenInfo key _) as [[err | session] s1] eqn:Hget; simpl.
  { intros [= <- <-]. simpl. split; [done |]. right. left. eauto. }
  destruct (time.After _ _); simpl.
  { destruct (DeleteToken key s1) as [result s2] eqn:Hdel.
    intros [= <- <-]. simpl. split; [done |]. right. right. left.
    eauto 10. }
  destruct (IsYandexUser session) eqn:Hkind; simpl.
  - destruct (YandexToken session) as [yandexToken|]; simpl.
    2: { intros [= <- <-]. simpl. split; [done |]. do 3 right.
         exists session. split; [done |]. left. auto. }
    destruct (refreshYandexToken yandexToken _) as [ry e3|]; [| done]. simpl.
    destruct (env.ctx_done e3 _); simpl.
    { intros [= <- <-]. simpl. split; [done |]. do 3 right.
      exists session. split; [done |]. left. eauto. }
    destruct ry as [err | newYandexToken]; simpl.
    { intros [= <- <-]. simpl. split; [done |]. do 3 right.
      exists session. split; [done |]. left. auto. }
    destruct (env.ctx_done _ _); simpl.
    { intros [= <- <-]. simpl. split; [done |]. do 3 right.
      exists session. split; [done |]. left. eauto. }
    destruct (chan.send _ _) as [c|] eqn:Hsend; simpl.
    2: { intros [= <- <-]. simpl. split; [done |]. do 3 right.
         exists session. split; [done |]. left. eauto. }
    intros [= <- <-]. simpl. split; [done |]. do 3 right.
    exists session. split; [done |]. right.
    eexists _, _. split; [done |]. split; [exact Hsend |]. by rewrite Hkind.
  - destruct (generate_auth_token _ _ _) as [a e1|] eqn:Hauth; [| done]. simpl.
    destruct (generate_refresh_token e1) as [t e2|] eqn:Href; [| done]. simpl.
    destruct (env.ctx_done _ _); simpl.
    { intros [= <- <-]. simpl. split; [done |]. do 3 right.
      exists session. split; [done |]. left. eauto. }
    destruct (chan.send _ _) as [c|] eqn:Hsend; simpl.
    2: { intros [= <- <-]. simpl. split; [done |]. do 3 right.
         exists session. split; [done |]. left. eauto. }
    intros [= <- <-]. simpl. split; [done |]. do 3 right.
    exists session. split; [done |]. right.
    eexists _, _. split; [done |]. split; [exact Hsend |]. by rewrite Hkind.
Qed.

End refresh_outcomes.

Section refresh_recorded.
Import AuthServer.
Import (hints) spy.
Context {S : Type} `{TokenStorage S}.

Lemma spy_get key (w w' : spy.t S) result :
  GetTokenInfo key w = (result, w') →
  spy.calls w' = (spy.calls w ++ [spy.Get key result])%list.
Proof.
  simpl. unfold spy.record. destruct (GetTokenInfo key (spy.inner w)).
  by intros [= <- <-].
Qed.

Lemma spy_delete key (w w' : spy.t S) result :
  DeleteToken key w = (result, w') →
  spy.calls w' = (spy.calls w ++ [spy.Delete key result])%list.
Proof.
  simpl. unfold spy.record. destruct (DeleteToken key (spy.inner w)).
  by intros [= <- <-].
Qed.

Lemma spy_store token info (w w' : spy.t S) result :
  StoreRefreshToken token info w = (result, w') →
  spy.calls w' = (spy.calls w ++ [spy.Store token info result])%list.
Proof.
  simpl. unfold spy.record. destruct (StoreRefreshToken token info (spy.inner w)).
  by intros [= <- <-].
Qed.

(** X15. Whatever the storage behind it, a call of [RefreshToken] that
    returns has made no put: it made no call to the storage, or one get of
    the key of the request, or one get that found a record followed by one
    delete, both of that key. The delete is made exactly when the call is
    answered with the expiry error. The new session of a refresh that
    succeeds is written by the rotation worker, never by the handler. *)
Theorem refresh_token_reads_then_may_delete
    (key : string) (p p' : @process (spy.t S))
    (r : error + TokenResponse) :
  RefreshToken key p = Ret r p' →
  ∃ new,
    spy.calls (tokenStorage (server p'))
    = (spy.calls (tokenStorage (server p)) ++ new)%list
    ∧ access.lookup key new
    ∧ (length new = 2%nat ↔ r = inr (Response_Error "refresh token expired")).
Proof.
  intros Hrun. apply RefreshToken_inv in Hrun as [_ Hcases].
  destruct Hcases
    as [(Hsame & _ & Hr)
       | [(err & Hget & _ & ->)
         | [(session & w1 & result & Hget & Hdel & _ & ->)
           | (session & Hget & Hr)]]].
  - exists []. rewrite Hsame, app_nil_r. split; [done |].
    split; [constructor |]. by destruct Hr as [-> | ->].
  - exists [spy.Get key (inl err)]. split; [by apply spy_get |].
    split; [constructor | done].
  - exists [spy.Get key (inr session); spy.Delete key result]. split.
    + rewrite (spy_delete _ _ _ _ Hdel), (spy_get _ _ _ _ Hget).
      by rewrite <- app_assoc.
    + split; [constructor | done].
  - exists [spy.Get key (inr session)]. split; [by apply spy_get |].
    split; [constructor |].
    destruct Hr as [(_ & [[err ->] | [-> | ->]]) | (data & ? & -> & _)]; done.
Qed.

End refresh_recorded.

Section refresh_recorded_witness.
Import AuthServer.
Import (hints) spy InMemoryTokenStorage.

Lemma refresh_token_reads_then_may_delete_witness :
  let session := mkTokenInfo "+7900" "+7900" 0 10 false None in
  let store :=
    (InMemoryTokenStorage.StoreRefreshToken "K" session
       InMemoryTokenStorage.New).2 in
  let p : @process (spy.t InMemoryTokenStorage.t) := {|
    server := NewAuthServer (spy.watch store);
    world := scenario.quiet 1000 |} in
  ∃ r p',
    RefreshToken "K" p = Ret r p'
    ∧ r = inr (Response_Error "refresh token expired")
    ∧ ∃ new,
        spy.calls (tokenStorage (server p')) = new
        ∧ access.lookup "K" new
        ∧ length new = 2%nat.
Proof.
  intros session store p.
  assert (Hreply : result (RefreshToken "K" p)
                   = Some (inr (Response_Error "refresh token expired")))
    by (vm_compute; reflexivity).
  destruct (RefreshToken "K" p) as [r p'|] eqn:Hrun; [| discriminate].
  injection Hreply as ->. eexists _, p'. split; [done |]. split; [done |].
  destruct (refresh_token_reads_then_may_delete "K" p p' _ Hrun)
    as (new & Hcalls & Hshape & Hlen).
  exists new. split; [exact Hcalls |]. split; [exact Hshape |]. by apply Hlen.
Defined.

End refresh_recorded_witness.

Section refresh_queue.
Import AuthServer.
Context {S : Type} `{TokenStorage S}.

Lemma chan_send_inv {A} (a : A) (c c' : chan.t A) :
  chan.send a c = Some c' →
  (length (chan.buf c) < chan.cap c)%nat
  ∧ chan.buf c' = (chan.buf c ++ [a])%list
  ∧ chan.cap c' = chan.cap c.
Proof.
  unfold chan.send. destruct (Nat.ltb_spec (length (chan.buf c)) (chan.cap c));
    [| done].
  by intros [= <-].
Qed.

(** X16. The reply of [RefreshToken] and the rotation queue go together. A
    call that returns a token pair found room in the queue and added to
    its end exactly one request: from the key of the request to the
    refresh token of the reply, for a session that expires when the reply
    says. Every other call that returns leaves the queue as it was. The
    capacity of the queue never changes. *)
Theorem refresh_token_reply_matches_queue
    (key : string) (p p' : @process S) (r : error + TokenResponse) :
  RefreshToken key p = Ret r p' →
  let queue := tokenUpdateChan (server p) in
  let queue' := tokenUpdateChan (server p') in
  chan.cap queue' = chan.cap queue
  ∧ match r with
    | inr (Response_Token data) =>
        (length (chan.buf queue) < chan.cap queue)%nat
        ∧ ∃ newInfo,
            chan.buf queue'
            = (chan.buf queue
                 ++ [{| oldToken := key;
                        newToken := authenticate_proto.RefreshToken data;
                        info := newInfo |}])%list
            ∧ ExpiresAt newInfo = authenticate_proto.ExpiresAt data
    | _ => chan.buf queue' = chan.buf queue
    end.
Proof.
  intros Hrun. apply RefreshToken_inv in Hrun as [_ Hcases]. simpl.
  destruct Hcases
    as [(_ & -> & [-> | ->])
       | [(err & _ & -> & ->)
         | [(session & w1 & result & _ & _ & -> & ->)
           | (session & _ & [(-> & [[err ->] | [-> | ->]])
                            | (data & newInfo & -> & Hsend & Hexp & _)])]]];
    try done.
  apply chan_send_inv in Hsend as (Hroom & Hbuf & Hcap). eauto.
Qed.

(** X17. A get that fails is answered as an invalid token, whatever its
    error: when a call of [RefreshToken] with a key that is not empty
    passes the rate limiter and the storage fails to return a record, for
    a missing key or for an outage alike, the reply is the error
    [invalid refresh token]; the error of the storage is dropped, the
    clock and the entropy source are not read again and nothing is
    queued. *)
Theorem refresh_storage_failure_is_invalid_token
    (key : string) (err : error) (s1 : S) (p : @process S) :
  let e := world p in
  let verdict :=
    RateLimiter.Allow (env.clock e (env.tick e)) key (rateLimiter (server p)) in
  verdict.1 = true →
  key ≠ "" →
  GetTokenInfo key (tokenStorage (server p)) = (inl err, s1) →
  RefreshToken key p
  = Ret (inr (Response_Error "invalid refresh token"))
      {| server := {| tokenStorage := s1;
                      tokenUpdateChan := tokenUpdateChan (server p);
                      rateLimiter := verdict.2 |};
         world := env.next e |}.
Proof.
  intros e verdict Hallow Hkey Hget.
  unfold RefreshToken, mbind at 1, M_bind at 1.
  rewrite rateLimiter_Allow_run. fold e verdict. rewrite Hallow. simpl.
  apply String.eqb_neq in Hkey. rewrite Hkey.
  unfold mbind, M_bind, on_storage. simpl. by rewrite Hget.
Qed.

End refresh_queue.

Section refresh_queue_witness.
Import AuthServer.
Import (hints) InMemoryTokenStorage unreliable.

Lemma refresh_token_reply_matches_queue_witness :
  let session := mkTokenInfo "+7900" "+7900" 0 scenario.day false None in
  let store :=
    (InMemoryTokenStorage.StoreRefreshToken "K" session
       InMemoryTokenStorage.New).2 in
  let p : @process InMemoryTokenStorage.t := {|
    server := NewAuthServer store; world := scenario.quiet 1000 |} in
  ∃ r p' data,
    RefreshToken "K" p = Ret r p'
    ∧ r = inr (Response_Token data)
    ∧ oldToken <$> chan.buf (tokenUpdateChan (server p')) = ["K"]
    ∧ newToken <$> chan.buf (tokenUpdateChan (server p'))
      = [authenticate_proto.RefreshToken data].
Proof.
  intros session store p.
  assert (Hreply : is_Some (result (RefreshToken "K" p)
                              ≫= λ r, match r with
                                       | inr (Response_Token data) => Some data
                                       | _ => None
                                       end)).
  { vm_compute. eauto. }
  destruct (RefreshToken "K" p) as [r p'|] eqn:Hrun;
    [| by destruct Hreply].
  destruct r as [| [| data]]; try by destruct Hreply.
  eexists _, p', data. split; [done |]. split; [done |].
  destruct (refresh_token_reply_matches_queue "K" p p' _ Hrun)
    as (_ & _ & newInfo & -> & _).
  split; reflexivity.
Defined.

Lemma refresh_storage_failure_is_invalid_token_witness :
  let session := mkTokenInfo "+7900" "+7900" 0 scenario.day false None in
  let store :=
    (InMemoryTokenStorage.StoreRefreshToken "K" session
       InMemoryTokenStorage.New).2 in
  let s := {| unreliable.store := store; unreliable.faults := [true] |} in
  let p : @process unreliable.t := {|
    server := NewAuthServer s; world := scenario.quiet 1000 |} in
  InMemoryTokenStorage.tokens store !! "K" = Some session
  ∧ result (RefreshToken "K" p)
    = Some (inr (Response_Error "invalid refresh token")).
Proof.
  intros session store s p. split; [vm_compute; reflexivity |].
  rewrite (refresh_storage_failure_is_invalid_token "K" unreliable.down
             {| unreliable.store := store; unreliable.faults := [] |} p).
  - reflexivity.
  - vm_compute. reflexivity.
  - vm_compute. discriminate.
  - reflexivity.
Defined.

End refresh_queue_witness.

(** ** Opening a session: SignUp, SignIn and OAuth2Callback *)

Section session_outcomes.
Import AuthServer.
Context {S : Type} `{TokenStorage S}.

(** How a call of [SignIn] returns: after one put of a password-based
    session, under the token of the second reading of the entropy
    source. *)
Lemma SignIn_inv PhoneNumber PasswordHash (p p' : @process S) r :
  SignIn PhoneNumber PasswordHash p = Ret r p' →
  let e := world p in
  let i := env.tick e in
  let tokenInfo := {|
    UserID := PhoneNumber;
    PhoneNumber := PhoneNumber;
    CreatedAt := env.clock e (2 + i);
    ExpiresAt := time.Add (env.clock e (3 + i)) (30 * 24 * time.Hour);
    IsYandexUser := false;
    YandexToken := None |} in
  ∃ result,
    StoreRefreshToken (drawn e (1 + i)) tokenInfo (tokenStorage (server p))
    = (result, tokenStorage (server p'))
    ∧ tokenUpdateChan (server p') = tokenUpdateChan (server p)
    ∧ rateLimiter (server p') = rateLimiter (server p)
    ∧ r = match result with
          | Some _ => inr (Response_Error "failed to store refresh token")
          | None =>
              inr (Response_Token {|
                authenticate_proto.AuthToken := drawn e i;
                authenticate_proto.RefreshToken := drawn e (1 + i);
                authenticate_proto.ExpiresAt :=
                  time.Add (env.clock e (4 + i)) (24 * time.Hour) |})
          end.
Proof.
  unfold SignIn. run_M. simpl.
  destruct (generate_auth_token _ _ _) as [a e1|] eqn:Hauth; [| done]. simpl.
  destruct (generate_refresh_token e1) as [t e2|] eqn:Href; [| done]. simpl.
  apply generate_auth_token_inv in Hauth as [-> ->].
  apply generate_refresh_token_inv in Href as [-> ->]. simpl.
  destruct (StoreRefreshToken _ _ _) as [[err|] s1] eqn:Hput; simpl;
    intros [= <- <-]; simpl; eexists; (split; [reflexivity |]); done.
Qed.

(** [fetchYandexUserProfile] makes one request and returns. *)
Lemma fetchYandexUserProfile_run accessToken e :
  ∃ r, fetchYandexUserProfile accessToken e = Ret r (env.next e).
Proof.
  unfold fetchYandexUserProfile, mbind, M_bind, ask.
  destruct (env.info_endpoint e (env.tick e) accessToken)
    as [err | StatusCode Status [err | profile]]; simpl.
  - by eexists.
  - destruct (negb _); by eexists.
  - destruct (negb _); by eexists.
Qed.

(** How a call of [OAuth2Callback] returns: with an error before the
    storage is reached, or after one put of a delegated session that holds
    the credential of the provider. *)
Lemma OAuth2Callback_inv code (p p' : @process S) r :
  OAuth2Callback code p = Ret r p' →
  let e := world p in
  let i := env.tick e in
  tokenUpdateChan (server p') = tokenUpdateChan (server p)
  ∧ rateLimiter (server p') = rateLimiter (server p)
  ∧ ((tokenStorage (server p') = tokenStorage (server p)
      ∧ (∃ err, r = inl err)
      ∧ ((∃ err, env.exchange e i code = inl err)
         ∨ ∃ token err,
             env.exchange e i code = inr token
             ∧ fetchYandexUserProfile (oauth2.AccessToken token) (env.next e)
               = Ret (inl err) (env.next (env.next e))))
     ∨ ∃ token profile result,
         env.exchange e i code = inr token
         ∧ fetchYandexUserProfile (oauth2.AccessToken token) (env.next e)
           = Ret (inr profile) (env.next (env.next e))
         ∧ StoreRefreshToken (drawn e (2 + i))
             {| UserID := ID profile;
                PhoneNumber := Email profile;
                CreatedAt := env.clock e (3 + i);
                ExpiresAt := time.Add (env.clock e (4 + i)) (30 * 24 * time.Hour);
                IsYandexUser := true;
                YandexToken := Some token |}
             (tokenStorage (server p))
           = (result, tokenStorage (server p'))
         ∧ r = match result with
               | Some err => inl ("failed to store refresh token: " ++ err)
               | None =>
                   inr {|
                     authenticate_proto.cb_AccessToken := oauth2.AccessToken token;
                     authenticate_proto.cb_RefreshToken := drawn e (2 + i);
                     authenticate_proto.cb_ExpiresAt := oauth2.Expiry token;
                     authenticate_proto.cb_UserProfile := profile.reply profile |}
               end).
Proof.
  unfold OAuth2Callback, ExchangeCode. run_M. unfold ask at 1. simpl.
  destruct (env.exchange _ _ code) as [err | token] eqn:Hexchange; simpl.
  { intros [= <- <-]. simpl. split; [done |]. split; [done |]. left.
    split; [done |]. split; [eauto |]. left. eauto. }
  destruct (fetchYandexUserProfile_run (oauth2.AccessToken token)
              (env.next (world p))) as [answer Hfetch].
  rewrite Hfetch. simpl.
  destruct answer as [err | profile]; simpl.
  { intros [= <- <-]. simpl. split; [done |]. split; [done |]. left.
    split; [done |]. split; [eauto |]. right. eauto. }
  destruct (generate_refresh_token _) as [t e2|] eqn:Href; [| done]. simpl.
  apply generate_refresh_token_inv in Href as [-> ->]. simpl.
  rewrite !drawn_next.
  destruct (StoreRefreshToken _ _ _) as [[err|] s1] eqn:Hput; simpl;
    intros [= <- <-]; simpl; (split; [done |]); (split; [done |]); right;
    eexists token, profile, _; (split; [reflexivity |]);
    (split; [exact Hfetch |]);
    (split; [first [reflexivity | exact Hput] |]); done.
Qed.

End session_outcomes.

Section session_recorded.
Import AuthServer.
Import (hints) spy.
Context {S : Type} `{TokenStorage S}.

(** X18. [OAuth2Callback] makes at most one call to the storage, a put.
    When the code exchange fails, or the profile request that follows it
    fails, no call is made; when both succeed exactly one put is made,
    under the token of the third reading of the entropy source. A call
    that returns the tokens has put, with success, one delegated session
    under the refresh token it returns: the session holds the credential
    of the provider whose access token and expiry are returned, and is
    filed under the id and the e-mail address of the profile; a call that
    returns an error has made no put that succeeded. *)
Theorem oauth2_callback_puts_delegated_session
    (code : string) (p p' : @process (spy.t S))
    (r : error + authenticate_proto.OAuth2CallbackResponse) :
  OAuth2Callback code p = Ret r p' →
  let e := world p in
  let i := env.tick e in
  ∃ new,
    spy.calls (tokenStorage (server p'))
    = (spy.calls (tokenStorage (server p)) ++ new)%list
    ∧ access.open new
    ∧ (∀ err, env.exchange e i code = inl err → new = [])
    ∧ (∀ token err e',
         env.exchange e i code = inr token →
         fetchYandexUserProfile (oauth2.AccessToken token) (env.next e)
         = Ret (inl err) e' →
         new = [])
    ∧ (∀ token profile e',
         env.exchange e i code = inr token →
         fetchYandexUserProfile (oauth2.AccessToken token) (env.next e)
         = Ret (inr profile) e' →
         ∃ info result, new = [spy.Store (drawn e (2 + i)) info result])
    ∧ match r with
      | inl _ => ∀ token info, new ≠ [spy.Store token info None]
      | inr cb =>
          ∃ info token,
            new = [spy.Store (authenticate_proto.cb_RefreshToken cb) info None]
            ∧ IsYandexUser info = true
            ∧ YandexToken info = Some token
            ∧ oauth2.AccessToken token = authenticate_proto.cb_AccessToken cb
            ∧ oauth2.Expiry token = authenticate_proto.cb_ExpiresAt cb
            ∧ UserID info
              = authenticate_proto.Id (authenticate_proto.cb_UserProfile cb)
            ∧ PhoneNumber info
              = authenticate_proto.Email (authenticate_proto.cb_UserProfile cb)
      end.
Proof.
  intros Hrun e i. apply OAuth2Callback_inv in Hrun as (_ & _ & Hcases).
  fold e i in Hcases.
  destruct Hcases as [(Hsame & (err & ->) & Hwhy)
                     | (token & profile & result & Hexchange & Hfetch & Hput & ->)].
  - exists []. rewrite Hsame, app_nil_r. split; [done |].
    split; [constructor |]. split; [done |]. split; [done |].
    split; [| done]. intros token profile e' Hexchange Hfetch.
    destruct Hwhy as [[err' Hfail] | (token' & err' & Hexchange' & Hfail)].
    + congruence.
    + rewrite Hexchange in Hexchange'. injection Hexchange' as <-.
      rewrite Hfetch in Hfail. discriminate.
  - eexists [_]. split; [by apply spy_store in Hput |].
    split; [constructor |]. split; [congruence |]. split.
    { intros token' err e' Hexchange' Hfail.
      rewrite Hexchange in Hexchange'. injection Hexchange' as <-.
      rewrite Hfetch in Hfail. discriminate. }
    split; [by eexists _, _ |].
    destruct result as [err|]; [by intros ?? [=] |].
    by eexists _, token.
Qed.

End session_recorded.

Section session_recorded_witness.
Import AuthServer.
Import (hints) spy InMemoryTokenStorage.

Lemma oauth2_callback_puts_delegated_session_witness :
  let ya := oauth2.mkToken "ya-access" "ya-refresh" 5000 in
  let profile := mkProfile "42" "user@yandex.ru" "Anna" "B" "anna" "0/0-0" in
  let p : @process (spy.t InMemoryTokenStorage.t) := {|
    server := NewAuthServer (spy.watch InMemoryTokenStorage.New);
    world := scenario.upstream 0 ya profile (mkTokenResponse "a" "" 3600) |} in
  ∃ cb p' info,
    OAuth2Callback "code" p = Ret (inr cb) p'
    ∧ spy.calls (tokenStorage (server p'))
      = [spy.Store (authenticate_proto.cb_RefreshToken cb) info None]
    ∧ oauth2.AccessToken <$> YandexToken info = Some "ya-access".
Proof.
  intros ya profile p.
  assert (Hreply : (result (OAuth2Callback "code" p)
                      ≫= λ r, match r with
                               | inr cb => Some (authenticate_proto.cb_AccessToken cb)
                               | inl _ => None
                               end) = Some "ya-access").
  { vm_compute. reflexivity. }
  destruct (OAuth2Callback "code" p) as [[err | cb] p'|] eqn:Hrun; try done.
  injection Hreply as Hreply.
  destruct (oauth2_callback_puts_delegated_session "code" p p' _ Hrun)
    as (new & Hcalls & _ & _ & _ & _
        & info & token & -> & _ & Htoken & Haccess & _).
  exists cb, p', info. split; [done |]. split; [exact Hcalls |].
  rewrite Htoken. simpl. by rewrite Haccess, Hreply.
Defined.

End session_recorded_witness.

(** ** Sessions on the in-process store *)

Section sessions_in_memory.
Import service AuthServer.
Import (hints) InMemoryTokenStorage.

Lemma in_memory_store_inv token info (s s' : InMemoryTokenStorage.t) result :
  InMemoryTokenStorage.StoreRefreshToken token info s = (result, s') →
  match result with
  | None =>
      InMemoryTokenStorage.len s < InMemoryTokenStorage.maxSize s
      ∧ UserID info ≠ "" ∧ PhoneNumber info ≠ ""
      ∧ s' = {| InMemoryTokenStorage.tokens :=
                  <[token := info]> (InMemoryTokenStorage.tokens s);
                InMemoryTokenStorage.maxSize := InMemoryTokenStorage.maxSize s |}
  | Some _ =>
      s' = s
      ∧ (InMemoryTokenStorage.maxSize s ≤ InMemoryTokenStorage.len s
         ∨ UserID info = "" ∨ PhoneNumber info = "")
  end.
Proof.
  unfold InMemoryTokenStorage.StoreRefreshToken.
  destruct (Z.leb_spec (InMemoryTokenStorage.maxSize s) (InMemoryTokenStorage.len s)).
  { intros [= <- <-]. auto. }
  destruct (String.eqb_spec (UserID info) ""); simpl.
  { intros [= <- <-]. auto. }
  destruct (String.eqb_spec (PhoneNumber info) ""); simpl.
  { intros [= <- <-]. auto. }
  intros [= <- <-]. auto.
Qed.

Lemma in_memory_get_inv token (s s' : InMemoryTokenStorage.t) r :
  InMemoryTokenStorage.GetTokenInfo token s = (r, s') →
  s' = s
  ∧ r = match InMemoryTokenStorage.tokens s !! token with
        | Some info => inr info
        | None => inl "token not found"
        end.
Proof.
  unfold InMemoryTokenStorage.GetTokenInfo.
  destruct (_ !! token); by intros [= <- <-].
Qed.

Lemma server_eq (a b : @AuthServer.t InMemoryTokenStorage.t) :
  tokenStorage a = tokenStorage b →
  tokenUpdateChan a = tokenUpdateChan b →
  rateLimiter a = rateLimiter b →
  a = b.
Proof. destruct a, b. simpl. by intros -> -> ->. Qed.



(** X20. On the in-process store a delegated identity logs in only with a
    profile that has an id and an e-mail address: an [OAuth2Callback] that
    returns the tokens was answered by the provider with such a profile,
    and left in the store, under the refresh token returned, a delegated
    session filed under that id and that address; an [OAuth2Callback]
    that returns an error left the server as it was. *)
Theorem oauth2_callback_needs_id_and_email
    (code : string) (p p' : service.process)
    (r : error + authenticate_proto.OAuth2CallbackResponse) :
  OAuth2Callback code p = Ret r p' →
  match r with
  | inr cb =>
      let profile := authenticate_proto.cb_UserProfile cb in
      authenticate_proto.Id profile ≠ ""
      ∧ authenticate_proto.Email profile ≠ ""
      ∧ ∃ session,
          tokens_of p'
          = <[authenticate_proto.cb_RefreshToken cb := session]> (tokens_of p)
          ∧ UserID session = authenticate_proto.Id profile
          ∧ PhoneNumber session = authenticate_proto.Email profile
          ∧ IsYandexUser session = true
  | inl _ => server p' = server p
  end.
Proof.
  intros Hrun. apply OAuth2Callback_inv in Hrun as (Hchan & Hrl & Hcases).
  destruct Hcases as [(Hsame & (err & ->) & _)
                     | (token & profile & result & _ & _ & Hput & ->)].
  - by apply server_eq.
  - apply in_memory_store_inv in Hput. destruct result as [err|]; simpl in *.
    + destruct Hput as [Hsame _]. by apply server_eq.
    + destruct Hput as (_ & Hid & Hmail & Hstore). split; [done |].
      split; [done |]. eexists. unfold tokens_of. rewrite Hstore. simpl.
      done.
Qed.

Lemma oauth2_callback_needs_id_and_email_witness :
  let ya := oauth2.mkToken "ya-access" "ya-refresh" 5000 in
  let resp := mkTokenResponse "a" "" 3600 in
  let world profile := scenario.upstream 0 ya profile resp in
  (∃ r p', OAuth2Callback "code"
             (scenario.boot (world (mkProfile "42" "" "Anna" "B" "anna" "0"))) = Ret r p'
           ∧ r = inl ("failed to store refresh token: "
                        ++ "invalid token info: missing required fields")
           ∧ tokens_of p' = ∅)
  ∧ (∃ cb p', OAuth2Callback "code"
                (scenario.boot (world (mkProfile "42" "a@ya.ru" "Anna" "B" "anna" "0")))
              = Ret (inr cb) p'
              ∧ authenticate_proto.Email (authenticate_proto.cb_UserProfile cb) ≠ "").
Proof.
  intros ya resp world. split.
  - set (p := scenario.boot _).
    assert (Hreply : result (OAuth2Callback "code" p)
                     = Some (inl ("failed to store refresh token: "
                                    ++ "invalid token info: missing required fields")))
      by (vm_compute; reflexivity).
    destruct (OAuth2Callback "code" p) as [r p'|] eqn:Hrun; [| done].
    injection Hreply as ->. eexists _, p'. split; [done |]. split; [done |].
    pose proof (oauth2_callback_needs_id_and_email "code" p p' _ Hrun) as Hsame.
    simpl in Hsame. unfold tokens_of. by rewrite Hsame.
  - set (p := scenario.boot _).
    assert (Hreply : is_Some (result (OAuth2Callback "code" p)
                                ≫= λ r, match r with
                                         | inr cb => Some ()
                                         | inl _ => None
                                         end)).
    { vm_compute. eauto. }
    destruct (OAuth2Callback "code" p) as [[err | cb] p'|] eqn:Hrun;
      try by destruct Hreply.
    exists cb, p'. split; [done |].
    by destruct (oauth2_callback_needs_id_and_email "code" p p' _ Hrun)
      as (_ & Hmail & _).
Defined.

End sessions_in_memory.

(** ** Rotations on the in-process store *)

Section rotations_in_memory.
Import service AuthServer.
Import (hints) InMemoryTokenStorage.

(** X21. What the handler [RefreshToken] itself does to the records of the
    in-process store, the rotation worker left aside. It changes them in
    one case only: when it answers with the expiry error it has deleted
    the key of the request. In every other case in which it returns, what
    the handler leaves is the store it found. In particular a refresh
    succeeds only on a key under which the handler found a record, and
    the handler does not remove that record: removing the replaced token
    is left to the rotation worker. *)
Theorem refresh_token_store_frame
    (key : string) (p p' : service.process) (r : error + TokenResponse) :
  RefreshToken key p = Ret r p' →
  (r = inr (Response_Error "refresh token expired")
   ∧ tokenStorage (server p')
     = (InMemoryTokenStorage.DeleteToken key (tokenStorage (server p))).2)
  ∨ (r ≠ inr (Response_Error "refresh token expired")
     ∧ tokenStorage (server p') = tokenStorage (server p)
     ∧ (∀ data, r = inr (Response_Token data) → is_Some (tokens_of p !! key))).
Proof.
  intros Hrun. apply RefreshToken_inv in Hrun as [_ Hcases].
  destruct Hcases
    as [(Hsame & _ & Hr)
       | [(err & Hget & _ & ->)
         | [(session & s1 & result & Hget & Hdel & _ & ->)
           | (session & Hget & Hr)]]].
  - right. split; [by destruct Hr as [-> | ->] |]. split; [done |].
    by destruct Hr as [-> | ->].
  - right. apply in_memory_get_inv in Hget as [-> _]. done.
  - left. split; [done |]. apply in_memory_get_inv in Hget as [-> _].
    simpl in Hdel. by injection Hdel as _ <-.
  - right. apply in_memory_get_inv in Hget as [Hsame Hfound].
    split; [| split; [done |]].
    + destruct Hr as [(_ & [[err ->] | [-> | ->]]) | (data & ? & -> & _)]; done.
    + intros data _. unfold tokens_of.
      destruct (InMemoryTokenStorage.tokens _ !! key); [eauto | done].
Qed.

Lemma refresh_token_store_frame_witness :
  let session := mkTokenInfo "+7900" "+7900" 0 scenario.day false None in
  let store :=
    (InMemoryTokenStorage.StoreRefreshToken "K" session
       InMemoryTokenStorage.New).2 in
  let p : service.process := {|
    server := NewAuthServer store; world := scenario.quiet 1000 |} in
  let twice : M service.process _ :=
    first ← RefreshToken "K"; second ← RefreshToken "K"; mret (first, second) in
  (∃ data p',
      RefreshToken "K" p = Ret (inr (Response_Token data)) p'
      ∧ tokenStorage (server p') = store)
  ∧ (λ replies,
       match replies with
       | (inr (Response_Token first), inr (Response_Token second)) =>
           Some (authenticate_proto.RefreshToken first,
                 authenticate_proto.RefreshToken second)
       | _ => None
       end) <$> result (twice p)
    = Some (Some ("AwAFBgcICQoLDA0ODxAREhMUFRYXGBkaGxwdHh8gISI=",
                  "CgAMDQ4PEBESExQVFhcYGRobHB0eHyAhIiMkJSYnKCk=")).
Proof.
  intros session store p twice. split; [| vm_compute; reflexivity].
  assert (Hreply : is_Some (result (RefreshToken "K" p)
                              ≫= λ r, match r with
                                       | inr (Response_Token data) => Some data
                                       | _ => None
                                       end)).
  { vm_compute. eauto. }
  destruct (RefreshToken "K" p) as [[err | [msg | data]] p'|] eqn:Hrun;
    try by destruct Hreply.
  exists data, p'. split; [done |].
  by destruct (refresh_token_store_frame "K" p p' _ Hrun)
    as [[[=] _] | (_ & Hsame & _)].
Defined.

(** X22. A rotation from end to end on the in-process store. A session is
    stored under [key]; the queue is empty and the store has room. Once
    [RefreshToken] has returned a token pair whose refresh token differs
    from [key], and the worker has taken its request, the queue is empty
    again, a get of [key] finds nothing, and the refresh token of the
    reply holds a session of the same user and phone number and of the
    same kind, which expires when the reply says; no other record has
    changed. *)
Theorem rotation_end_to_end
    (key : string) (session : TokenInfo) (p p' : service.process)
    (data : authenticate_proto.RefreshTokenResponseData) :
  tokens_of p !! key = Some session →
  UserID session ≠ "" → PhoneNumber session ≠ "" →
  pending p = [] →
  InMemoryTokenStorage.len (tokenStorage (server p))
  < InMemoryTokenStorage.maxSize (tokenStorage (server p)) →
  RefreshToken key p = Ret (inr (Response_Token data)) p' →
  authenticate_proto.RefreshToken data ≠ key →
  let p'' := worker_step p' in
  pending p'' = []
  ∧ tokens_of p'' !! key = None
  ∧ (∃ session',
       tokens_of p'' !! authenticate_proto.RefreshToken data = Some session'
       ∧ UserID session' = UserID session
       ∧ PhoneNumber session' = PhoneNumber session
       ∧ IsYandexUser session' = IsYandexUser session
       ∧ ExpiresAt session' = authenticate_proto.ExpiresAt data)
  ∧ (∀ other, other ≠ key → other ≠ authenticate_proto.RefreshToken data →
       tokens_of p'' !! other = tokens_of p !! other).
Proof.
  intros Hin Huser Hphone Hempty Hroom Hrun Hnew.
  apply RefreshToken_inv in Hrun as [_ Hcases].
  destruct Hcases
    as [(_ & _ & [[=] | [=]])
       | [(err & _ & _ & [=])
         | [(session0 & s1 & result & _ & _ & _ & [=])
           | (session0 & Hget & [(_ & [[err [=]] | [[=] | [=]]])
                                | (data0 & newInfo & [= <-] & Hsend & Hexp
                                   & Hu & Hp & Hk)])]]].
  apply in_memory_get_inv in Hget as [Hsame Hfound].
  unfold tokens_of in Hin. rewrite Hin in Hfound. injection Hfound as <-.
  apply chan_send_inv in Hsend as (_ & Hbuf & _).
  unfold pending in Hempty. rewrite Hempty in Hbuf. simpl in Hbuf.
  unfold worker_step, chan.recv, pending, tokens_of. rewrite Hbuf. simpl.
  rewrite Hsame.
  set (update := {| oldToken := key;
                    newToken := authenticate_proto.RefreshToken data;
                    info := newInfo |}).
  assert (Hput : (InMemoryTokenStorage.StoreRefreshToken (newToken update)
                    (info update) (tokenStorage (server p))).1 = None).
  { apply store_accepts_iff. simpl. by rewrite Hu, Hp. }
  rewrite (rotation_applied_in_memory update _ Hput). simpl.
  split; [done |]. split; [by rewrite lookup_delete_eq |]. split.
  - exists newInfo. rewrite lookup_delete_ne by done.
    by rewrite lookup_insert_eq.
  - intros other Hold Hother. rewrite lookup_delete_ne by done.
    by rewrite lookup_insert_ne.
Qed.

Lemma rotation_end_to_end_witness :
  let session := mkTokenInfo "+7900" "+7900" 0 scenario.day false None in
  let store :=
    (InMemoryTokenStorage.StoreRefreshToken "K" session
       InMemoryTokenStorage.New).2 in
  let p : service.process := {|
    server := NewAuthServer store; world := scenario.quiet 1000 |} in
  ∃ data p',
    RefreshToken "K" p = Ret (inr (Response_Token data)) p'
    ∧ authenticate_proto.RefreshToken data
      = "AwAFBgcICQoLDA0ODxAREhMUFRYXGBkaGxwdHh8gISI="
    ∧ tokens_of (worker_step p') !! "K" = None
    ∧ is_Some (tokens_of (worker_step p')
                 !! "AwAFBgcICQoLDA0ODxAREhMUFRYXGBkaGxwdHh8gISI=").
Proof.
  intros session store p.
  assert (Hreply : (result (RefreshToken "K" p)
                      ≫= λ r, match r with
                               | inr (Response_Token data) =>
                                   Some (authenticate_proto.RefreshToken data)
                               | _ => None
                               end)
                   = Some "AwAFBgcICQoLDA0ODxAREhMUFRYXGBkaGxwdHh8gISI=").
  { vm_compute. reflexivity. }
  destruct (RefreshToken "K" p) as [[err | [msg | data]] p'|] eqn:Hrun;
    try done.
  injection Hreply as Hreply. exists data, p'. split; [done |].
  split; [done |].
  destruct (rotation_end_to_end "K" session p p' data)
    as (_ & Hgone & (session' & Hnew & _) & _);
    [vm_compute; reflexivity | done | done | reflexivity
    | vm_compute; reflexivity | exact Hrun | rewrite Hreply; discriminate |].
  split; [exact Hgone |]. rewrite <- Hreply. eauto.
Defined.

(** X23. While the in-process store is at capacity the rotation worker
    changes nothing: every put is refused, so no old key is deleted and no
    new key appears, however many requests the worker receives: it stores
    none of the refresh tokens that were handed out for those requests. *)
Theorem rotation_stalls_at_capacity
    (updates : list tokenUpdateRequest) (s : InMemoryTokenStorage.t) :
  InMemoryTokenStorage.maxSize s ≤ InMemoryTokenStorage.len s →
  tokenUpdateWorker updates s = s.
Proof.
  intros Hfull. induction updates as [|update updates IH] using rev_ind;
    [done |].
  unfold tokenUpdateWorker in *. rewrite foldl_snoc, IH.
  apply (rotation_abandoned_in_memory update s "token storage is at capacity").
  by rewrite store_at_capacity.
Qed.

Lemma rotation_stalls_at_capacity_witness :
  let session := mkTokenInfo "+7900" "+7900" 0 (30 * scenario.day) false None in
  tokenUpdateWorker [mkUpdate "42" "new-42" session; mkUpdate "43" "new-43" session]
    scenario.full
  = scenario.full.
Proof.
  intros session. apply rotation_stalls_at_capacity.
  rewrite full_len. unfold scenario.full, InMemoryTokenStorage.maxSize. lia.
Defined.

(** X24. A rotation whose new key is its old key loses the session: on the
    in-process store, when the put of such a request succeeds, the delete
    that follows removes the record just put, a get of the key finds
    nothing afterwards, and the other records are as before. This is what
    a delegated session meets when it is stored under the refresh token
    of the provider and the provider answers the refresh with that same
    refresh token. *)
Theorem rotation_to_same_key_deletes
    (update : tokenUpdateRequest) (s : InMemoryTokenStorage.t) :
  newToken update = oldToken update →
  (InMemoryTokenStorage.StoreRefreshToken (newToken update) (info update) s).1
  = None →
  InMemoryTokenStorage.tokens (tokenUpdate update s)
  = delete (oldToken update) (InMemoryTokenStorage.tokens s)
  ∧ (InMemoryTokenStorage.GetTokenInfo (newToken update) (tokenUpdate update s)).1
    = inl "token not found".
Proof.
  intros Hsame Hput.
  assert (Hafter : InMemoryTokenStorage.tokens (tokenUpdate update s)
                   = delete (oldToken update) (InMemoryTokenStorage.tokens s)).
  { rewrite (rotation_applied_in_memory update s Hput), Hsame.
    apply delete_insert_eq. }
  split; [exact Hafter |].
  unfold InMemoryTokenStorage.GetTokenInfo. rewrite Hafter, Hsame.
  by rewrite lookup_delete_eq.
Qed.

Lemma rotation_to_same_key_deletes_witness :
  let ya := oauth2.mkToken "ya-access" "ya-refresh" 5000 in
  let session := mkTokenInfo "42" "user@yandex.ru" 0 scenario.day true (Some ya) in
  let store :=
    (InMemoryTokenStorage.StoreRefreshToken "ya-refresh" session
       InMemoryTokenStorage.New).2 in
  let update := mkUpdate "ya-refresh" "ya-refresh" session in
  InMemoryTokenStorage.tokens store !! "ya-refresh" = Some session
  ∧ InMemoryTokenStorage.tokens (tokenUpdate update store) = ∅
  ∧ (InMemoryTokenStorage.GetTokenInfo "ya-refresh" (tokenUpdate update store)).1
    = inl "token not found".
Proof.
  intros ya session store update. split; [vm_compute; reflexivity |].
  destruct (rotation_to_same_key_deletes update store) as [Hafter Hget];
    [reflexivity | vm_compute; reflexivity |].
  split; [| exact Hget]. rewrite Hafter. vm_compute. reflexivity.
Defined.

(** The rotation queue across one step of the service: its capacity stays,
    and it stays within its capacity. *)
Lemma step_queue ev (p p' : service.process) :
  step ev p = Some p' →
  let queue := tokenUpdateChan (server p) in
  let queue' := tokenUpdateChan (server p') in
  chan.cap queue' = chan.cap queue
  ∧ ((length (chan.buf queue) ≤ chan.cap queue)%nat →
     (length (chan.buf queue') ≤ chan.cap queue')%nat).
Proof.
  destruct ev as [phone hash | phone hash | key | code | |]; simpl.
  - destruct (AuthServer.SignUp phone hash p) as [r q|] eqn:Hrun; [| done].
    intros [= ->]. by apply SignIn_inv in Hrun as (result & _ & -> & _).
  - destruct (AuthServer.SignIn phone hash p) as [r q|] eqn:Hrun; [| done].
    intros [= ->]. by apply SignIn_inv in Hrun as (result & _ & -> & _).
  - destruct (AuthServer.RefreshToken key p) as [r q|] eqn:Hrun; [| done].
    intros [= ->]. apply RefreshToken_inv in Hrun as [_ Hcases].
    destruct Hcases
      as [(_ & -> & _)
         | [(err & _ & -> & _)
           | [(session & s1 & result & _ & _ & -> & _)
             | (session & _ & [(-> & _)
                              | (data & newInfo & _ & Hsend & _)])]]];
      try done.
    apply chan_send_inv in Hsend as (Hroom & -> & ->).
    split; [done |]. rewrite length_app. simpl. lia.
  - destruct (AuthServer.OAuth2Callback code p) as [r q|] eqn:Hrun; [| done].
    intros [= ->]. apply OAuth2Callback_inv in Hrun as (Hsame & _).
    by rewrite Hsame.
  - intros [= <-]. unfold worker_step, chan.recv.
    destruct (chan.buf (tokenUpdateChan (server p))) as [|update rest] eqn:Hbuf;
      simpl.
    + by rewrite Hbuf.
    + split; [done | lia].
  - unfold sweep. run_M. simpl. by intros [= <-].
Qed.

(** X25. The rotation queue never holds more than 100 requests: whatever
    requests are handled, whenever the worker runs and the ticker fires, a
    service started on a new store keeps a queue of capacity 100 with at
    most 100 requests pending. *)
Theorem rotation_queue_bounded
    (e : env.t) (evs : list event) (p : service.process) :
  exec evs (scenario.boot e) = Some p →
  (length (pending p) ≤ 100)%nat
  ∧ chan.cap (tokenUpdateChan (server p)) = 100%nat.
Proof.
  assert (Hruns : ∀ evs (p p' : service.process),
            exec evs p = Some p' →
            (length (pending p) ≤ 100)%nat
            ∧ chan.cap (tokenUpdateChan (server p)) = 100%nat →
            (length (pending p') ≤ 100)%nat
            ∧ chan.cap (tokenUpdateChan (server p')) = 100%nat).
  { clear. induction evs as [|ev evs IH]; intros p p'; simpl.
    - by intros [= <-].
    - destruct (step ev p) as [q|] eqn:Hstep; [| done].
      intros Hexec [Hlen Hcap]. apply (IH q p' Hexec).
      apply step_queue in Hstep as [Hcap' Hlen']. unfold pending in *.
      rewrite Hcap' in *. rewrite Hcap in *. auto. }
  intros Hexec. apply (Hruns evs _ p Hexec). simpl. split; [lia | done].
Qed.

Lemma rotation_queue_bounded_witness :
  let e := scenario.quiet 0 in
  let evs := [service.SignUp "+7900" "hash";
              service.RefreshToken "AQADBAUGBwgJCgsMDQ4PEBESExQVFhcYGRobHB0eHyA=";
              service.RefreshToken "AQADBAUGBwgJCgsMDQ4PEBESExQVFhcYGRobHB0eHyA="] in
  ∃ p, exec evs (scenario.boot e) = Some p
       ∧ length (pending (after evs (scenario.boot e))) = 2%nat
       ∧ (length (pending p) ≤ 100)%nat.
Proof.
  intros e evs.
  assert (Hruns : survives evs (scenario.boot e) = true)
    by (vm_compute; reflexivity).
  apply survives_after in Hruns. eexists. split; [exact Hruns |].
  split; [vm_compute; reflexivity |].
  by destruct (rotation_queue_bounded e evs _ Hruns).
Defined.

End rotations_in_memory.

(** ** Start-up *)

Section startup_facts.
Import startup.

(** Strings two characters at a time. *)
Lemma string_ind2 (P : string → Prop) :
  P "" → (∀ a, P (String a "")) →
  (∀ a b s, P s → P (String a (String b s))) →
  ∀ s, P s.
Proof.
  intros H0 H1 H2. fix IH 1.
  intros [|a [|b s]]; [done | done |]. apply H2, IH.
Qed.

Lemma DecodeString_length s : ∀ bytes,
  hex.DecodeString s = inr bytes →
  String.length s = (2 * length bytes)%nat.
Proof.
  induction s as [| a | a b s IH] using string_ind2; intros bytes.
  - by intros [= <-].
  - simpl. by destruct (hex.fromHexChar a).
  - cbn [hex.DecodeString].
    destruct (hex.fromHexChar a); [| done].
    destruct (hex.fromHexChar b); [| done].
    destruct (hex.DecodeString s) as [err | rest]; [done |].
    intros [= <-]. simpl. rewrite (IH rest eq_refl). lia.
Qed.

Lemma getEnv_run key defaultValue h :
  getEnv key defaultValue h
  = Ret (default defaultValue (environ h !! key)) h.
Proof. unfold getEnv. by destruct (environ h !! key). Qed.



(** X27. [NewAuthServer] returns a server only on a host where
    [REDIS_ENCRYPTION_KEY] is set to 32, 48 or 64 hexadecimal digits, the
    Redis URL parses and Redis answers the ping. The server then holds a
    storage keyed with the 16, 24 or 32 bytes the digits stand for, an
    empty rotation queue of capacity 100 and a rate limiter of 60 calls a
    minute. In every other case the process ends. *)
Theorem new_auth_server_needs_aes_key
    (h h' : host) (server : @AuthServer.t RedisTokenStorage) :
  NewAuthServer h = Ret server h' →
  let storage := AuthServer.tokenStorage server in
  let key := encryptionKey storage in
  ∃ hexKey,
    environ h !! "REDIS_ENCRYPTION_KEY" = Some hexKey
    ∧ hex.DecodeString hexKey = inr key
    ∧ String.length hexKey = (2 * length key)%nat
    ∧ (length key = 16 ∨ length key = 24 ∨ length key = 32)%nat
    ∧ ParseURL h (redisURL storage) = None
    ∧ Ping h (redisURL storage) (password storage) = None
    ∧ redisURL storage = default "redis://localhost:6379" (environ h !! "REDIS_URL")
    ∧ password storage = default "" (environ h !! "REDIS_PASSWORD")
    ∧ AuthServer.tokenUpdateChan server = chan.make 100
    ∧ AuthServer.rateLimiter server = RateLimiter.New (1 * time.Minute) 60
    ∧ h' = h.
Proof.
  unfold NewAuthServer, mbind, M_bind. rewrite !getEnv_run.
  destruct (environ h !! "REDIS_ENCRYPTION_KEY") as [hexKey|] eqn:Hkey;
    [| done].
  simpl. destruct (hex.DecodeString hexKey) as [err | key] eqn:Hhex; [done |].
  unfold NewRedisTokenStorage.
  destruct (ParseURL h _) eqn:Hparse; [done |].
  destruct (Ping h _ _) eqn:Hping; [done |].
  unfold aes_NewCipher.
  destruct (_ || _) eqn:Hsize; [| done].
  intros [= <- <-]. simpl. exists hexKey. split; [done |]. split; [done |].
  split; [by apply DecodeString_length |]. split; [| done].
  apply orb_true_iff in Hsize as [Hsize | ->%Nat.eqb_eq]; [| auto].
  apply orb_true_iff in Hsize as [->%Nat.eqb_eq | ->%Nat.eqb_eq]; auto.
Qed.

Lemma new_auth_server_needs_aes_key_witness :
  let h := {| environ := {[ "REDIS_ENCRYPTION_KEY" :=
                              "000102030405060708090a0b0c0d0e0f" ]};
              ParseURL := λ _, None;
              Ping := λ _ _, None |} in
  ∃ server h',
    NewAuthServer h = Ret server h'
    ∧ encryptionKey (AuthServer.tokenStorage server)
      = [x00; x01; x02; x03; x04; x05; x06; x07;
         x08; x09; x0a; x0b; x0c; x0d; x0e; x0f]
    ∧ (length (encryptionKey (AuthServer.tokenStorage server)) = 16
       ∨ length (encryptionKey (AuthServer.tokenStorage server)) = 24
       ∨ length (encryptionKey (AuthServer.tokenStorage server)) = 32)%nat.
Proof.
  intros h.
  assert (Hkey : (λ server, encryptionKey (AuthServer.tokenStorage server))
                   <$> result (NewAuthServer h)
                 = Some [x00; x01; x02; x03; x04; x05; x06; x07;
                         x08; x09; x0a; x0b; x0c; x0d; x0e; x0f])
    by (vm_compute; reflexivity).
  destruct (NewAuthServer h) as [server h'|] eqn:Hrun; [| done].
  injection Hkey as Hkey. exists server, h'. split; [done |].
  split; [exact Hkey |].
  by destruct (new_auth_server_needs_aes_key h h' server Hrun)
    as (hexKey & _ & _ & _ & Hsize & _).
Defined.

End startup_facts.

(** ** The Redis token storage *)

Section redis_storage_facts.
Import cipher RedisTokenStorage RedisTokenStorageMethods.
Context {gcm : AEAD} {gcm_correct : AEADCorrect gcm}.
Context {codec : json.Codec} {R : Type} `{redis.Client R}.

(** X28. A put on the Redis storage is read back by a get. When the codec
    reads back what it writes for the record, the entropy source
    delivers the nonce, and Redis accepts the value and returns it for
    its key, [StoreRefreshToken] succeeds after one reading of the entropy
    source and one of the clock, and [GetTokenInfo] of the same token then
    returns the record: what went to Redis under the key of the token is
    the sealed record, which the get opens. *)
Theorem redis_store_then_get
    (token : string) (info : TokenInfo) (data : list byte) (s : t R) :
  json.Marshal info = inr data →
  json.Unmarshal data = inr info →
  env.rand_err (world s) (env.tick (world s)) = None →
  (∀ value expiration,
      ∃ r', redis.Set_ ("token:" ++ token) value expiration (client s) = (None, r')
            ∧ (redis.Get ("token:" ++ token) r').1 = redis.Bytes value) →
  ∃ s',
    StoreRefreshToken token info s = Ret None s'
    ∧ world s' = env.next (env.next (world s))
    ∧ result (GetTokenInfo token s') = Some (inr info).
Proof.
  intros Hwrite Hread Hok Hredis.
  unfold StoreRefreshToken, GetTokenInfo. rewrite Hwrite.
  unfold encrypt, time_Until, time_Now, ask, mbind, M_bind, in_world, on_client.
  rewrite (rand_Read_ok _ _ Hok). simpl.
  set (nonce := List.map _ (seq 0 NonceSize)).
  destruct (Hredis (Seal nonce nonce data [])
              (time_Sub (ExpiresAt info)
                 (env.clock (world s) (Datatypes.S (env.tick (world s))))))
    as (r' & Hset & Hget).
  rewrite Hset. eexists. split; [done |]. split; [done |]. simpl.
  destruct (redis.Get _ r') as [reply r'']. simpl in Hget. subst reply.
  rewrite decrypt_sealed by (unfold nonce; by rewrite length_map, length_seq).
  by rewrite Hread.
Qed.

(** X29. A delete on the Redis storage that Redis honours is followed by
    a get that reports the token as not found, the answer of a get for
    which Redis has no value under the key; neither reads the clock or the
    entropy source. *)
Theorem redis_delete_then_get (token : string) (r' : R) (s : t R) :
  redis.Del ("token:" ++ token) (client s) = (None, r') →
  (redis.Get ("token:" ++ token) r').1 = redis.Nil →
  ∃ s',
    DeleteToken token s = Ret None s'
    ∧ client s' = r'
    ∧ world s' = world s
    ∧ GetTokenInfo token s'
      = Ret (inl "token not found")
          {| client := (redis.Get ("token:" ++ token) r').2; world := world s |}.
Proof.
  intros Hdel Hget. unfold DeleteToken, GetTokenInfo, mbind, M_bind, on_client.
  rewrite Hdel. eexists. split; [done |]. split; [done |]. split; [done |].
  simpl. destruct (redis.Get _ r') as [reply r'']. simpl in *. by subst.
Qed.

End redis_storage_facts.

Section redis_storage_witness.
Import cipher RedisTokenStorage RedisTokenStorageMethods.
Import (hints) toy.

Lemma redis_store_then_get_witness :
  let gcm := scenario.tagged in
  let info := mkTokenInfo "+7900" "+7900" 0 0 false None in
  let s : t (gmap string (list byte)) :=
    {| client := ∅; world := scenario.quiet 1000 |} in
  ∃ s',
    StoreRefreshToken "K" info s = Ret None s'
    ∧ world s' = env.next (env.next (world s))
    ∧ result (GetTokenInfo "K" s') = Some (inr info).
Proof.
  intros gcm info s.
  apply (@redis_store_then_get scenario.tagged tagged_correct toy.phone_only
           _ toy.keeps "K" info
           (byte_of_ascii <$> list_ascii_of_string "+7900") s).
  - reflexivity.
  - reflexivity.
  - reflexivity.
  - intros value expiration. eexists. split; [reflexivity |].
    simpl. by rewrite lookup_insert_eq.
Defined.

Lemma redis_delete_then_get_witness :
  let gcm := scenario.tagged in
  let s : t (gmap string (list byte)) :=
    {| client := {[ "token:K" := [x00] ]}; world := scenario.quiet 1000 |} in
  ∃ s',
    DeleteToken "K" s = Ret None s'
    ∧ client s' = ∅
    ∧ result (GetTokenInfo "K" s') = Some (inl "token not found").
Proof.
  intros gcm s.
  destruct (@redis_delete_then_get scenario.tagged toy.phone_only _ toy.keeps
              "K" ∅ s)
    as (s' & Hdel & Hclient & _ & Hget).
  - vm_compute. reflexivity.
  - reflexivity.
  - exists s'. split; [exact Hdel |]. split; [exact Hclient |].
    exact (f_equal result Hget).
Defined.

End redis_storage_witness.

(** ** A failing entropy source *)

Section entropy_failure.
Import cipher RedisTokenStorage.
Context {gcm : AEAD} {codec : json.Codec} {R : Type} `{redis.Client R}.
Context {S : Type} `{TokenStorage S}.


End entropy_failure.

Section entropy_failure_witness.
Import (hints) InMemoryTokenStorage toy.


End entropy_failure_witness.
